(** * mlocate_reader: the mlocate.db binary decoder and the path matcher

    A shallow embedding of [parse_mlocate_db] and [search_paths] of
    [mlocate_reader.py], with the Python primitives they call
    ([bytes] slicing and indexing, [bytes.index], [struct.unpack(">I")],
    [bytes.decode("utf-8", errors="replace")]) written out, followed by
    the properties of the decoder and of the matcher. *)

From Stdlib Require Import ZArith NArith Strings.Byte Ascii String List Lia.
From stdpp Require Import base decidable option list numbers countable gmap.

Import ListNotations.
Local Open Scope nat_scope.

(** ** Python values *)

(** A [bytes] object: an immutable sequence of integers in [0, 256). *)
Definition bytes := list byte.

#[global] Instance byte_eq_decision : EqDecision byte := Byte.byte_eq_dec.

(** A [str] object: a sequence of Unicode code points. *)
Definition codepoint := N.
Definition pystr := list codepoint.

(** A [str] literal of ASCII characters. *)
Definition py (s : string) : pystr :=
  map N_of_ascii (list_ascii_of_string s).

(** A [bytes] literal of ASCII characters. *)
Definition pyb (s : string) : bytes :=
  map byte_of_ascii (list_ascii_of_string s).

Arguments py : simpl never.
Arguments pyb : simpl never.

(** The exceptions that leave the functions: none of them is caught
    anywhere in the program. [SystemExit] is what [sys.exit(code)]
    raises; [OSError] stands for its subclasses too, told apart by the
    error number. *)
Inductive exception : Type :=
  | ValueError (msg : string)     (* bytes.index: the byte is absent *)
  | IndexError (msg : string)     (* data[pos] with pos out of range *)
  | StructError (msg : string)    (* struct.unpack on a short buffer *)
  | SystemExit (code : Z)         (* sys.exit *)
  | OverflowError (msg : string)  (* re.compile: repetition too large *)
  | RecursionError (msg : string) (* re.compile: nesting too deep *)
  | OSError (errno : Z).          (* open, read *)

(** The outcome of running a piece of the program with a bound on the
    number of loop iterations: a returned value, a raised exception, or
    the bound reached. *)
Inductive outcome (A : Type) : Type :=
  | Return (a : A)
  | Raise (e : exception)
  | OutOfFuel.
Arguments Return {A} a.
Arguments Raise {A} e.
Arguments OutOfFuel {A}.

(** Sequencing: an exception (or the bound) ends the run at once. *)
#[global] Instance outcome_ret : MRet outcome := fun A a => Return a.
#[global] Instance outcome_bind : MBind outcome := fun A B k m =>
  match m with
  | Return a => k a
  | Raise e => Raise e
  | OutOfFuel => OutOfFuel
  end.

(** ** Operations on [bytes] *)

(** [data[a:b]] for [0 <= a], [0 <= b]: both ends are clipped to the
    length of [data], and the slice is empty when [b <= a]. *)
Definition slice (data : bytes) (a b : nat) : bytes :=
  firstn (b - a) (skipn a data).

(** [data[pos]] for [0 <= pos]. *)
Definition getitem (data : bytes) (pos : nat) : outcome byte :=
  match nth_error data pos with
  | Some b => Return b
  | None => Raise (IndexError "index out of range")
  end.

(** The position of the first occurrence of [b] in [l]. *)
Fixpoint find_byte (b : byte) (l : bytes) : option nat :=
  match l with
  | [] => None
  | x :: r => if Byte.eqb x b then Some 0
              else match find_byte b r with
                   | Some i => Some (S i)
                   | None => None
                   end
  end.

(** [data.index(bytes([b]), pos)]: the least index [i >= pos] with
    [data[i] == b]; [ValueError] when there is none (also when [pos] is
    past the end). *)
Definition bytes_index (data : bytes) (b : byte) (pos : nat) : outcome nat :=
  match find_byte b (skipn pos data) with
  | Some i => Return (pos + i)
  | None => Raise (ValueError "subsection not found")
  end.

(** [struct.unpack(">I", buf)[0]]: [buf] must hold exactly four bytes,
    read as a big-endian unsigned integer. *)
Definition struct_unpack_I (buf : bytes) : outcome nat :=
  match buf with
  | [b3; b2; b1; b0] =>
      Return (N.to_nat (Byte.to_N b3 * 16777216 + Byte.to_N b2 * 65536
                        + Byte.to_N b1 * 256 + Byte.to_N b0))
  | _ => Raise (StructError "unpack requires a buffer of 4 bytes")
  end.

(** *** [bytes.decode("utf-8", errors="replace")]

    CPython's decoder: a well-formed sequence gives its code point; an
    ill-formed one gives U+FFFD and decoding resumes after the bytes the
    error covers (one byte for an invalid start byte, the bytes read so
    far for an invalid continuation byte, the whole rest for a sequence
    cut by the end of the input). *)

Definition U_FFFD : codepoint := 65533%N.

Definition is_continuation (b : byte) : bool :=
  ((128 <=? Byte.to_N b) && (Byte.to_N b <? 192))%N.

(** The second byte of a three-byte sequence: E0 needs A0..BF (no
    overlong form), ED needs 80..9F (no surrogate). *)
Definition second_of_3 (c c2 : N) : bool :=
  negb (if (c2 <? 160)%N then (c =? 224)%N else (c =? 237)%N).

(** The second byte of a four-byte sequence: F0 needs 90..BF, F4 needs
    80..8F (nothing above U+10FFFF). *)
Definition second_of_4 (c c2 : N) : bool :=
  negb (if (c2 <? 144)%N then (c =? 240)%N else (c =? 244)%N).

Fixpoint utf8_decode_replace (s : bytes) : pystr :=
  match s with
  | [] => []
  | b :: s1 =>
    let c := Byte.to_N b in
    if (c <? 128)%N then c :: utf8_decode_replace s1
    else if (c <? 194)%N then U_FFFD :: utf8_decode_replace s1
    else if (c <? 224)%N then
      match s1 with
      | [] => [U_FFFD]
      | b2 :: s2 =>
        if is_continuation b2
        then (c * 64 + Byte.to_N b2 - 12416)%N :: utf8_decode_replace s2
        else U_FFFD :: utf8_decode_replace s1
      end
    else if (c <? 240)%N then
      match s1 with
      | [] => [U_FFFD]
      | b2 :: s2 =>
        if is_continuation b2 && second_of_3 c (Byte.to_N b2) then
          match s2 with
          | [] => [U_FFFD]
          | b3 :: s3 =>
            if is_continuation b3
            then (c * 4096 + Byte.to_N b2 * 64 + Byte.to_N b3 - 925824)%N
                 :: utf8_decode_replace s3
            else U_FFFD :: utf8_decode_replace s2
          end
        else U_FFFD :: utf8_decode_replace s1
      end
    else if (c <? 245)%N then
      match s1 with
      | [] => [U_FFFD]
      | b2 :: s2 =>
        if is_continuation b2 && second_of_4 c (Byte.to_N b2) then
          match s2 with
          | [] => [U_FFFD]
          | b3 :: s3 =>
            if is_continuation b3 then
              match s3 with
              | [] => [U_FFFD]
              | b4 :: s4 =>
                if is_continuation b4
                then (c * 262144 + Byte.to_N b2 * 4096 + Byte.to_N b3 * 64
                      + Byte.to_N b4 - 63447168)%N :: utf8_decode_replace s4
                else U_FFFD :: utf8_decode_replace s3
              end
            else U_FFFD :: utf8_decode_replace s2
          end
        else U_FFFD :: utf8_decode_replace s1
      end
    else U_FFFD :: utf8_decode_replace s1
  end.

(** ** The decoder: [parse_mlocate_db] *)

Definition MLOCATE_MAGIC : bytes :=
  [x00; x6d; x6c; x6f; x63; x61; x74; x65].   (* b"\x00mlocate" *)

Definition FILE_ENTRY : byte := x00.
Definition DIR_ENTRY : byte := x01.
Definition END_ENTRY : byte := x02.

(** The state the two loops update: the cursor [pos], the list
    [all_paths] and the set [seen]. *)
Definition parse_state : Type := nat * list pystr * gset pystr.

(** The inner [while pos < len(data)] loop, which reads the entries of
    the directory [dir_path]. [fuel] bounds the number of iterations. *)
Fixpoint read_entries (fuel : nat) (data : bytes) (dir_path : pystr)
    (pos : nat) (all_paths : list pystr) (seen : gset pystr)
    : outcome parse_state :=
  match fuel with
  | 0 => OutOfFuel
  | S fuel =>
    if pos <? length data then
      entry_type ← getitem data pos;
      let pos := pos + 1 in
      if Byte.eqb entry_type END_ENTRY then
        Return (pos, all_paths, seen)                          (* break *)
      else
        null_idx ← bytes_index data x00 pos;
        let entry_name := utf8_decode_replace (slice data pos null_idx) in
        let pos := null_idx + 1 in
        let full_path :=
          if decide (dir_path = py "/") then py "/" ++ entry_name
          else dir_path ++ py "/" ++ entry_name in
        if decide (full_path ∉ seen) then
          read_entries fuel data dir_path pos
            (all_paths ++ [full_path]) (seen ∪ {[full_path]})
        else
          read_entries fuel data dir_path pos all_paths seen
    else Return (pos, all_paths, seen)
  end.

(** The outer [while pos < len(data)] loop over the directory records. *)
Fixpoint read_directories (fuel : nat) (data : bytes)
    (pos : nat) (all_paths : list pystr) (seen : gset pystr)
    : outcome parse_state :=
  match fuel with
  | 0 => OutOfFuel
  | S fuel =>
    if pos <? length data then
      if length data <? pos + 16 then
        Return (pos, all_paths, seen)                          (* break *)
      else
        let pos := pos + 16 in
        null_idx ← bytes_index data x00 pos;
        let dir_path := utf8_decode_replace (slice data pos null_idx) in
        let pos := null_idx + 1 in
        '(pos, all_paths, seen) ←
          (if decide (dir_path ∉ seen) then
             read_entries fuel data dir_path pos
               (all_paths ++ [dir_path]) (seen ∪ {[dir_path]})
           else
             read_entries fuel data dir_path pos all_paths seen);
        read_directories fuel data pos all_paths seen
    else Return (pos, all_paths, seen)
  end.

(** [parse_mlocate_db] on the content [data] of the file. The messages
    printed before [sys.exit(1)] are left out. Each directory record
    moves the cursor by 17 bytes or more, so [length data] iterations
    are enough ([parse_mlocate_db_terminates]). *)
Definition parse_mlocate_db (data : bytes)
    : outcome (list pystr * pystr * byte) :=
  let pos := 0 in
  let magic := slice data pos (pos + 8) in
  let pos := pos + 8 in
  if negb (bool_decide (magic = MLOCATE_MAGIC)) then Raise (SystemExit 1)
  else
    config_size ← struct_unpack_I (slice data pos (pos + 4));
    let pos := pos + 4 in
    version ← getitem data pos;
    let pos := pos + 1 in
    require_vis ← getitem data pos;
    let pos := pos + 1 in
    let pos := pos + 2 in
    null_idx ← bytes_index data x00 pos;
    let root_path := utf8_decode_replace (slice data pos null_idx) in
    let pos := null_idx + 1 in
    let pos := 8 + 4 + 4 + config_size in
    '(pos, all_paths, seen) ←
      read_directories (S (length data)) data pos [] ∅;
    Return (all_paths, root_path, version).

(** The error kinds of the specification, as the program raises them. *)
Definition InvalidFormat : exception := SystemExit 1.
Definition CorruptRecord : exception := ValueError "subsection not found".

(** A record header of 16 zero bytes. *)
Definition hdr16 : bytes := repeat x00 16.

(** A database with [config_size = 2], the root path ["/"] and its
    terminator in these two bytes, and two directory records from offset
    18 on; ["/etc"] occurs as a child of ["/"] and as a directory. *)
Definition sample_db : bytes :=
  MLOCATE_MAGIC ++ [x00; x00; x00; x02] ++ [x00; x01; x00; x00]
  ++ pyb "/" ++ [x00]
  ++ hdr16 ++ pyb "/" ++ [x00]
     ++ [x01] ++ pyb "etc" ++ [x00] ++ [x00] ++ pyb "vmlinuz" ++ [x00] ++ [x02]
  ++ hdr16 ++ pyb "/etc" ++ [x00]
     ++ [x00] ++ pyb "passwd" ++ [x00] ++ [x02].

(** ** The matcher: [search_paths] *)

(** What [re.compile] raises apart from [re.error]: [OverflowError] for
    a repetition count that is too large, [ValueError], and
    [RecursionError] for a pattern nested too deep. *)
Inductive compile_exception : Type :=
  | CompileOverflowError (msg : string)
  | CompileValueError (msg : string)
  | CompileRecursionError (msg : string).

Definition raised (e : compile_exception) : exception :=
  match e with
  | CompileOverflowError msg => OverflowError msg
  | CompileValueError msg => ValueError msg
  | CompileRecursionError msg => RecursionError msg
  end.

(** The three ways [re.compile] ends: with a compiled pattern, with
    [re.error], or with another exception. *)
Inductive compile_result (R : Type) : Type :=
  | Compiled (rx : R)
  | ReError
  | CompileRaises (e : compile_exception).
Arguments Compiled {R} rx.
Arguments ReError {R}.
Arguments CompileRaises {R} e.

(** The library functions [search_paths] calls on [str] values. Their
    code is Python's, not the program's: [str.lower], [fnmatch.fnmatch],
    [re.compile] (the flag is [re.IGNORECASE]) and [Pattern.search] on a
    [str], whose result is used as a truth value only. *)
Class StrLib : Type := {
  lower : pystr -> pystr;
  fnmatch : pystr -> pystr -> bool;
  regex : Type;
  re_compile : pystr -> bool -> compile_result regex;
  rx_search : regex -> pystr -> bool
}.

(** [pat in target] on [str]: [pat] occurs as a contiguous run. *)
Fixpoint startswith (target pat : pystr) : bool :=
  match pat, target with
  | [], _ => true
  | _ :: _, [] => false
  | c :: pat', d :: target' => (c =? d)%N && startswith target' pat'
  end.

Fixpoint contains (pat target : pystr) : bool :=
  startswith target pat ||
  match target with
  | [] => false
  | _ :: target' => contains pat target'
  end.

(** [limit and len(results) >= limit]: [None] and [0] are false. *)
Definition cap_reached (limit : option Z) (results : list pystr) : bool :=
  match limit with
  | None => false
  | Some l => negb (l =? 0)%Z && (Z.of_nat (length results) >=? l)%Z
  end.

(** The loop the three branches share, each with its own [test]:
<<
    for p in paths:
        if test(p):
            results.append(p)
            if limit and len(results) >= limit:
                break
>> *)
Fixpoint scan (test : pystr -> bool) (limit : option Z)
    (paths results : list pystr) : list pystr :=
  match paths with
  | [] => results
  | p :: paths' =>
    if test p then
      let results := results ++ [p] in
      if cap_reached limit results then results                (* break *)
      else scan test limit paths' results
    else scan test limit paths' results
  end.

Section Matcher.
Context `{StrLib}.

(** The test of the regular-expression branch. *)
Definition regex_test (rx : regex) (p : pystr) : bool := rx_search rx p.

(** The test of the glob branch. *)
Definition glob_test (pattern : pystr) (ignore_case : bool) (p : pystr)
    : bool :=
  let target := if ignore_case then lower p else p in
  let pat := if ignore_case then lower pattern else pattern in
  fnmatch target pat.

(** The test of the plain-text branch. *)
Definition text_test (pattern : pystr) (ignore_case : bool) (p : pystr)
    : bool :=
  let pat := if ignore_case then lower pattern else pattern in
  let target := if ignore_case then lower p else p in
  contains pat target.

(** The test the call uses, when its pattern is accepted. *)
Definition path_test (pattern : pystr)
    (ignore_case use_glob use_regex : bool) : option (pystr -> bool) :=
  if use_regex then
    match re_compile pattern ignore_case with
    | Compiled rx => Some (regex_test rx)
    | _ => None
    end
  else if use_glob then Some (glob_test pattern ignore_case)
  else Some (text_test pattern ignore_case).

(** How the call ends when its pattern is not accepted: with
    [sys.exit(1)] after [re.error], with the exception of [re.compile]
    otherwise. *)
Definition pattern_failure (pattern : pystr) (ignore_case : bool)
    : exception :=
  match re_compile pattern ignore_case with
  | CompileRaises e => raised e
  | _ => SystemExit 1
  end.

Definition search_paths (paths : list pystr) (pattern : pystr)
    (ignore_case use_glob use_regex : bool) (limit : option Z)
    : outcome (list pystr) :=
  let results := [] in
  if use_regex then
    match re_compile pattern ignore_case with
    | ReError => Raise (SystemExit 1)       (* except re.error *)
    | CompileRaises e => Raise (raised e)   (* no handler *)
    | Compiled rx => Return (scan (regex_test rx) limit paths results)
    end
  else if use_glob then
    Return (scan (glob_test pattern ignore_case) limit paths results)
  else
    Return (scan (text_test pattern ignore_case) limit paths results).
End Matcher.

Definition InvalidPattern : exception := SystemExit 1.

(** A small instance of the library, for running the matcher on ASCII
    data. On ASCII strings [ascii_lower] is [str.lower]; [glob_match] is
    [fnmatch.fnmatch] for patterns of literal characters, [*] and [?];
    [lit_compile] does what [re.compile] does on a regular expression
    made of an optional leading [^] and literal characters (it compiles
    it), on a literal character with a repetition count [{n}] of
    [MAXREPEAT] or more (it raises [OverflowError]) and on ["("] (it
    raises [re.error]). Every other pattern is outside the instance: it
    answers [re.error] there whatever [re.compile] does, and no example
    uses one. *)
Definition ascii_lower (s : pystr) : pystr :=
  map (fun c => if ((65 <=? c) && (c <=? 90))%N then (c + 32)%N else c) s.

Fixpoint glob_match (pat s : pystr) : bool :=
  match pat with
  | [] => match s with [] => true | _ :: _ => false end
  | c :: pat' =>
    if (c =? 42)%N then                                   (* '*' *)
      (fix star (s : pystr) : bool :=
         glob_match pat' s ||
         match s with [] => false | _ :: s' => star s' end) s
    else
      match s with
      | [] => false
      | d :: s' => ((c =? 63)%N || (c =? d)%N) && glob_match pat' s'
      end
  end.

Definition is_meta (c : codepoint) : bool :=
  bool_decide (c ∈ py ".^$*+?{}[]\|()").

Definition MAXREPEAT : N := 4294967295.

(** The number a run of decimal digits followed by ["}"] writes. *)
Fixpoint repeat_count (acc : N) (digits : pystr) : option N :=
  match digits with
  | [] => None
  | c :: rest =>
    if ((48 <=? c) && (c <=? 57))%N then
      match rest with
      | [] => None
      | d :: rest' =>
        if ((d =? 125)%N && match rest' with [] => true | _ => false end)%bool
        then Some (acc * 10 + (c - 48))%N
        else repeat_count (acc * 10 + (c - 48))%N rest
      end
    else None
  end.

(** The count [n] of a pattern [c{n}] with a literal character [c]. *)
Definition repetition_of (body : pystr) : option N :=
  match body with
  | c :: b :: digits =>
      if (negb (is_meta c) && (b =? 123)%N)%bool then repeat_count 0 digits
      else None
  | _ => None
  end.

Definition lit_compile (pattern : pystr) (ignore_case : bool)
    : compile_result (bool * pystr * bool) :=
  let '(anchored, body) :=
    match pattern with
    | c :: body => if (c =? 94)%N then (true, body) else (false, pattern)
    | [] => (false, pattern)
    end in
  match repetition_of body with
  | Some n =>
      if (MAXREPEAT <=? n)%N
      then CompileRaises
             (CompileOverflowError "the repetition number is too large")
      else ReError
  | None =>
      if existsb is_meta body then ReError
      else Compiled (anchored, body, ignore_case)
  end.

Definition lit_search (rx : bool * pystr * bool) (p : pystr) : bool :=
  let '(anchored, body, ignore_case) := rx in
  let body := if ignore_case then ascii_lower body else body in
  let p := if ignore_case then ascii_lower p else p in
  if anchored then startswith p body else contains body p.

Definition ascii_lib : StrLib := {|
  lower := ascii_lower;
  fnmatch := fun name pat => glob_match pat name;
  regex := bool * pystr * bool;
  re_compile := lit_compile;
  rx_search := lit_search
|}.

Definition sample_paths : list pystr :=
  [py "/home/alice/report.txt"; py "/home/bob/notes.md"; py "/etc/passwd"].

(** ** The path stream of a buffer

    The sequence of paths the record stream encodes, before any
    deduplication: the two loops of the decoder with every directory
    path and every full child path recorded in the order it is read. *)

Fixpoint entry_stream (fuel : nat) (data : bytes) (dir_path : pystr)
    (pos : nat) : outcome (nat * list pystr) :=
  match fuel with
  | 0 => OutOfFuel
  | S fuel =>
    if pos <? length data then
      entry_type ← getitem data pos;
      let pos := pos + 1 in
      if Byte.eqb entry_type END_ENTRY then Return (pos, [])
      else
        null_idx ← bytes_index data x00 pos;
        let entry_name := utf8_decode_replace (slice data pos null_idx) in
        let pos := null_idx + 1 in
        let full_path :=
          if decide (dir_path = py "/") then py "/" ++ entry_name
          else dir_path ++ py "/" ++ entry_name in
        '(pos, rest) ← entry_stream fuel data dir_path pos;
        Return (pos, full_path :: rest)
    else Return (pos, [])
  end.

Fixpoint directory_stream (fuel : nat) (data : bytes) (pos : nat)
    : outcome (nat * list pystr) :=
  match fuel with
  | 0 => OutOfFuel
  | S fuel =>
    if pos <? length data then
      if length data <? pos + 16 then Return (pos, [])
      else
        let pos := pos + 16 in
        null_idx ← bytes_index data x00 pos;
        let dir_path := utf8_decode_replace (slice data pos null_idx) in
        let pos := null_idx + 1 in
        '(pos, children) ← entry_stream fuel data dir_path pos;
        '(pos, rest) ← directory_stream fuel data pos;
        Return (pos, dir_path :: children ++ rest)
    else Return (pos, [])
  end.

(** What the decoder does with one path of the stream. *)
Definition add_path (st : list pystr * gset pystr) (p : pystr)
    : list pystr * gset pystr :=
  if decide (p ∉ st.2) then (st.1 ++ [p], st.2 ∪ {[p]}) else st.

Definition add_paths (st : list pystr * gset pystr) (stream : list pystr)
    : list pystr * gset pystr :=
  fold_left add_path stream st.

(** A list with every element kept at its first occurrence only. *)
Fixpoint first_occurrences (l : list pystr) : list pystr :=
  match l with
  | [] => []
  | x :: l' => x :: filter (fun y => y ≠ x) (first_occurrences l')
  end.

(** The list and the set hold the same paths, and the list has no
    repetition: the invariant of the two loops. *)
Definition consistent (st : list pystr * gset pystr) : Prop :=
  NoDup st.1 /\ forall p, p ∈ st.2 <-> p ∈ st.1.

(** ** Headers and results *)

(** A header the decoder accepts: the magic bytes, the size [config_size]
    of the configuration block, the version and flag bytes, and a root
    path with its terminator at [null_idx]. *)
Definition header_ok (data : bytes) (config_size : nat) (version : byte)
    (null_idx : nat) : Prop :=
  firstn 8 data = MLOCATE_MAGIC /\
  struct_unpack_I (slice data 8 12) = Return config_size /\
  getitem data 12 = Return version /\
  bytes_index data x00 16 = Return null_idx.

(** The paths the record stream of [data] encodes, in the order of the
    byte stream; the record stream starts where the decoder starts to
    read it. *)
Definition path_stream (data : bytes) : outcome (list pystr) :=
  config_size ← struct_unpack_I (slice data 8 12);
  '(_, stream) ← directory_stream (S (length data)) data (8 + 4 + 4 + config_size);
  Return stream.

(** The path list of a result of the decoder. *)
Definition paths_of (r : outcome (list pystr * pystr * byte))
    : outcome (list pystr) :=
  '(paths, _, _) ← r; Return paths.

(** Two record streams and headers for the examples: the headers have
    [config_size = 6] and the root paths ["/"] and ["/home"]. *)
Definition sample_records : bytes :=
  hdr16 ++ pyb "/" ++ [x00]
     ++ [x01] ++ pyb "etc" ++ [x00] ++ [x00] ++ pyb "vmlinuz" ++ [x00] ++ [x02]
  ++ hdr16 ++ pyb "/etc" ++ [x00]
     ++ [x00] ++ pyb "passwd" ++ [x00] ++ [x02].

Definition header_slash : bytes :=
  MLOCATE_MAGIC ++ [x00; x00; x00; x06] ++ [x00; x01; x00; x00]
  ++ pyb "/" ++ [x00] ++ pyb "conf".

Definition header_home : bytes :=
  MLOCATE_MAGIC ++ [x00; x00; x00; x06] ++ [x00; x00; x00; x00]
  ++ pyb "/home" ++ [x00].

(** ** Record streams built from directory records *)

(** A directory record: the 16 header bytes, the bytes of the directory
    path and, for each child entry, its type byte and the bytes of its
    name. *)
Record dir_record : Type := {
  rec_header : bytes;
  rec_path : bytes;
  rec_entries : list (byte * bytes)
}.

Definition encode_entry (e : byte * bytes) : bytes :=
  e.1 :: e.2 ++ [x00].

Definition encode_entries (es : list (byte * bytes)) : bytes :=
  flat_map encode_entry es.

Definition encode_record (r : dir_record) : bytes :=
  rec_header r ++ rec_path r ++ [x00]
  ++ encode_entries (rec_entries r) ++ [END_ENTRY].

Definition encode_records (rs : list dir_record) : bytes :=
  flat_map encode_record rs.

(** An entry has a type other than [END_ENTRY] and a name without a
    zero byte; a record has a 16-byte header, a path without a zero
    byte, and such entries. *)
Definition entry_ok (e : byte * bytes) : Prop :=
  e.1 ≠ END_ENTRY /\ x00 ∉ e.2.

Definition record_ok (r : dir_record) : Prop :=
  length (rec_header r) = 16 /\ (x00 ∉ rec_path r) /\
  Forall entry_ok (rec_entries r).

(** The full path of the child [name] of the directory [dir_path]. *)
Definition child_path (dir_path name : pystr) : pystr :=
  if decide (dir_path = py "/") then py "/" ++ name
  else dir_path ++ py "/" ++ name.

(** The paths of a record: the directory, then its children in order. *)
Definition record_paths (r : dir_record) : list pystr :=
  utf8_decode_replace (rec_path r)
  :: map (fun e => child_path (utf8_decode_replace (rec_path r))
                     (utf8_decode_replace e.2)) (rec_entries r).

Definition records_paths (rs : list dir_record) : list pystr :=
  flat_map record_paths rs.

#[global] Instance entry_ok_dec e : Decision (entry_ok e).
Proof. unfold entry_ok. apply _. Defined.

#[global] Instance record_ok_dec r : Decision (record_ok r).
Proof. unfold record_ok. apply _. Defined.

Definition usr_var_records : list dir_record :=
  [ {| rec_header := hdr16; rec_path := pyb "/usr";
       rec_entries := [(DIR_ENTRY, pyb "bin"); (FILE_ENTRY, pyb "README")] |};
    {| rec_header := hdr16; rec_path := pyb "/var";
       rec_entries := [(DIR_ENTRY, pyb "log"); (FILE_ENTRY, pyb "run")] |} ].

(** A record stream of two different directories with one child each:
    ["/"] with the child ["a"], and ["/a"] with the child ["b"]. *)
Definition nested_records : list dir_record :=
  [ {| rec_header := hdr16; rec_path := pyb "/";
       rec_entries := [(DIR_ENTRY, pyb "a")] |};
    {| rec_header := hdr16; rec_path := pyb "/a";
       rec_entries := [(FILE_ENTRY, pyb "b")] |} ].

Definition root_records : list dir_record :=
  [ {| rec_header := hdr16; rec_path := pyb "/";
       rec_entries := [(DIR_ENTRY, pyb "etc")] |};
    {| rec_header := hdr16; rec_path := pyb "/etc";
       rec_entries := [(FILE_ENTRY, pyb "passwd")] |} ].

(** ** Strings without a terminator *)

(** A buffer in which a null-terminated string the decoder reads has no
    zero byte before the end of the buffer: the root path; or, after a
    run of records, the path of a directory record; or, in such a
    record, the name of an entry. *)
Inductive unterminated (data : bytes) (config_size : nat) : Prop :=
  | unterminated_root_path :
      x00 ∉ skipn 16 data ->
      unterminated data config_size
  | unterminated_dir_path null_idx rs hdr partial :
      bytes_index data x00 16 = Return null_idx ->
      skipn (16 + config_size) data = encode_records rs ++ hdr ++ partial ->
      Forall record_ok rs -> length hdr = 16 -> x00 ∉ partial ->
      unterminated data config_size
  | unterminated_entry_name null_idx rs hdr path es ty partial :
      bytes_index data x00 16 = Return null_idx ->
      skipn (16 + config_size) data
      = encode_records rs
        ++ hdr ++ path ++ [x00] ++ encode_entries es ++ ty :: partial ->
      Forall record_ok rs -> length hdr = 16 -> x00 ∉ path ->
      Forall entry_ok es -> ty ≠ END_ENTRY -> x00 ∉ partial ->
      unterminated data config_size.

(** A buffer that ends in the path of its first directory record, at
    offset 38, and one that ends in the path of its third record, at
    offset 92. *)
Definition truncated_first : bytes :=
  header_slash ++ hdr16 ++ pyb "/ho".

Definition truncated_third : bytes :=
  header_slash ++ encode_records root_records ++ hdr16 ++ pyb "/ho".

(** ** The layout of the file format *)

(** A database laid out as the file format has it: the 16-byte prefix
    with [config_size = 4], the root path ["/"] and its terminator, the
    four bytes of the configuration block, and one record for ["/"] with
    the child ["etc"]. *)
Definition format_layout_records : list dir_record :=
  [ {| rec_header := hdr16; rec_path := pyb "/";
       rec_entries := [(DIR_ENTRY, pyb "etc")] |} ].

Definition format_layout_db : bytes :=
  MLOCATE_MAGIC ++ [x00; x00; x00; x04] ++ [x00; x00; x00; x00]
  ++ pyb "/" ++ [x00]
  ++ pyb "cfg" ++ [x00]
  ++ encode_records format_layout_records.

(** ** More on record streams *)

(** A record whose entry list is cut by the end of the buffer: the same
    bytes as [encode_record] without the final [END_ENTRY]. *)
Definition encode_open_record (r : dir_record) : bytes :=
  rec_header r ++ rec_path r ++ [x00] ++ encode_entries (rec_entries r).

(** What a record names: its path and the names of its entries, without
    the header bytes and the entry types. *)
Definition record_names (r : dir_record) : bytes * list bytes :=
  (rec_path r, map snd (rec_entries r)).

(** Sample records: a record for ["/tmp"], and the records of
    [usr_var_records] with other header bytes and entry types. *)
Definition open_record_example : dir_record :=
  {| rec_header := hdr16; rec_path := pyb "/tmp";
     rec_entries := [(FILE_ENTRY, pyb "x"); (FILE_ENTRY, pyb "y")] |}.

Definition usr_var_records' : list dir_record :=
  [ {| rec_header := repeat xff 16; rec_path := pyb "/usr";
       rec_entries := [(FILE_ENTRY, pyb "bin"); (x07, pyb "README")] |};
    {| rec_header := repeat x01 16; rec_path := pyb "/var";
       rec_entries := [(FILE_ENTRY, pyb "log"); (DIR_ENTRY, pyb "run")] |} ].

(** ** The command line: [main] *)

(** The result of [parse_args()]: the database file name and the
    options [-s], [-i], [-g], [-r], [-l], [-c], [--stats] and [-o], with
    [None] for an option with a value that is not given. *)
Record Args : Type := {
  arg_dbfile : pystr;
  arg_search : option pystr;
  arg_ignore_case : bool;
  arg_glob : bool;
  arg_regex : bool;
  arg_limit : option Z;
  arg_count : bool;
  arg_stats : bool;
  arg_output : option pystr
}.

(** The truth value of an optional [str] and of an optional [int]:
    [None], the empty string and [0] are false. *)
Definition str_truthy (o : option pystr) : bool :=
  match o with
  | Some (_ :: _) => true
  | _ => false
  end.

Definition int_truthy (o : option Z) : bool :=
  match o with
  | Some n => negb (n =? 0)%Z
  | None => false
  end.

(** [l[:stop]]: a negative [stop] counts from the end. *)
Definition slice_to {A} (l : list A) (stop : Z) : list A :=
  if (0 <=? stop)%Z then firstn (Z.to_nat stop) l
  else firstn (length l - Z.to_nat (- stop)) l.

(** What [main] itself does to the outside, in order: the lines it
    prints, by their content, the call of [show_stats] and the file it
    writes. The lines printed inside [parse_mlocate_db] and
    [search_paths] before [sys.exit(1)] are left out, as they are there. *)
Inductive event : Type :=
  | FileNotFound (dbfile : pystr)          (* [!] File not found: ... *)
  | Reading (dbfile : pystr)               (* [*] Reading: ... *)
  | Loaded (n : nat)                       (* [+] Loaded n paths *)
  | ShowStats (paths : list pystr) (dbfile root_path : pystr)
      (version : byte)                     (* show_stats(...) *)
  | ResultCount (n : nat)                  (* Results: n *)
  | WriteFile (name : pystr) (lines : list pystr)
                                           (* each result and a newline *)
  | Saved (n : nat) (name : pystr)         (* [+] Saved n results to: ... *)
  | PrintPath (p : pystr)                  (* a result *)
  | Footer (n : nat)                       (* -- Results: n -- *)
  | NoResults (pattern : pystr).           (* No results for: ... *)

Section Main.
Context `{StrLib}.

(** The results [main] shows: those of [search_paths] when a search
    pattern is given, the path list or its slice otherwise. *)
Definition main_results (args : Args) (paths : list pystr)
    : outcome (list pystr) :=
  match arg_search args with
  | Some (c :: pattern) =>
      search_paths paths (c :: pattern) (arg_ignore_case args)
        (arg_glob args) (arg_regex args) (arg_limit args)
  | _ =>
      match arg_limit args with
      | Some n => Return (if negb (n =? 0)%Z then slice_to paths n else paths)
      | None => Return paths
      end
  end.

(** [main] after [parse_args()]. [file] is the content of the database
    file, [None] when [os.path.exists] is false; opening the database
    and the output file is taken to succeed. The result is what [main]
    did and how it ended. *)
Definition main (args : Args) (file : option bytes)
    : list event * outcome unit :=
  match file with
  | None => ([FileNotFound (arg_dbfile args)], Raise (SystemExit 1))
  | Some data =>
    let out := [Reading (arg_dbfile args)] in
    match parse_mlocate_db data with
    | Raise e => (out, Raise e)
    | OutOfFuel => (out, OutOfFuel)
    | Return (paths, root_path, version) =>
      let out := out ++ [Loaded (length paths)] in
      if arg_stats args then
        (out ++ [ShowStats paths (arg_dbfile args) root_path version],
         Return tt)
      else
        match main_results args paths with
        | Raise e => (out, Raise e)
        | OutOfFuel => (out, OutOfFuel)
        | Return results =>
          if arg_count args then
            (out ++ [ResultCount (length results)], Return tt)
          else
            match arg_output args with
            | Some (c :: name) =>
                (out ++ [WriteFile (c :: name) results;
                         Saved (length results) (c :: name)], Return tt)
            | _ =>
                (out ++ map PrintPath results
                 ++ (if str_truthy (arg_search args) then
                       Footer (length results)
                       :: (match results with
                           | [] => match arg_search args with
                                   | Some pattern => [NoResults pattern]
                                   | None => []
                                   end
                           | _ :: _ => []
                           end)
                     else []),
                 Return tt)
            end
        end
    end
  end.
End Main.

(** The database file as the program finds it: absent
    ([os.path.exists] is false, [open] raises [FileNotFoundError]);
    present but not readable as a file ([open] or [read] raises
    [OSError] with the error number [errno], 21 on a directory, 13
    without permission); or readable, with its content. *)
Inductive db_file : Type :=
  | Missing
  | Unreadable (errno : Z)
  | Content (data : bytes).



(** The three ways [parser.parse_args()] ends: with the arguments, with
    [sys.exit(2)] on arguments it does not accept, or with [sys.exit(0)]
    after printing the help for [-h]. *)
Inductive parse_args_result : Type :=
  | Parsed (args : Args)
  | UsageError
  | HelpRequested.

Section MainCli.
Context `{StrLib}.

(** [main] from its first line: [parse_args()], then the run on the
    arguments; an unreadable database makes [parse_mlocate_db] raise
    after the line that announces the reading. Opening the output file
    is taken to succeed. *)
Definition main_cli (cmdline : parse_args_result) (file : db_file)
    : list event * outcome unit :=
  match cmdline with
  | UsageError => ([], Raise (SystemExit 2))
  | HelpRequested => ([], Raise (SystemExit 0))
  | Parsed args =>
    match file with
    | Missing => main args None
    | Unreadable errno =>
        ([Reading (arg_dbfile args)], Raise (OSError errno))
    | Content data => main args (Some data)
    end
  end.
End MainCli.

(** The paths a run printed, in order. *)
Definition printed_paths (events : list event) : list pystr :=
  omap (fun e => match e with PrintPath p => Some p | _ => None end) events.

(** Arguments for the examples: a regex search over [sample_db]. *)
Definition sample_args : Args := {|
  arg_dbfile := py "mlocate.db";
  arg_search := Some (py "^/etc");
  arg_ignore_case := false;
  arg_glob := false;
  arg_regex := true;
  arg_limit := Some 10%Z;
  arg_count := false;
  arg_stats := false;
  arg_output := None
|}.

(** A plain-text search written to a file, and a regex search with a
    pattern that does not compile. *)
Definition output_args : Args := {|
  arg_dbfile := py "mlocate.db";
  arg_search := Some (py "etc");
  arg_ignore_case := false;
  arg_glob := false;
  arg_regex := false;
  arg_limit := None;
  arg_count := false;
  arg_stats := false;
  arg_output := Some (py "out.txt")
|}.

(** A run with [--stats] and every other option set, among them a
    regular expression that does not compile. *)
Definition stats_args : Args := {|
  arg_dbfile := py "mlocate.db";
  arg_search := Some (py "(");
  arg_ignore_case := true;
  arg_glob := true;
  arg_regex := true;
  arg_limit := Some 1%Z;
  arg_count := true;
  arg_stats := true;
  arg_output := Some (py "out.txt")
|}.

Definition stats_only_args : Args := {|
  arg_dbfile := py "mlocate.db";
  arg_search := None;
  arg_ignore_case := false;
  arg_glob := false;
  arg_regex := false;
  arg_limit := None;
  arg_count := false;
  arg_stats := true;
  arg_output := None
|}.

Definition bad_regex_args : Args := {|
  arg_dbfile := py "mlocate.db";
  arg_search := Some (py "(");
  arg_ignore_case := false;
  arg_glob := false;
  arg_regex := true;
  arg_limit := None;
  arg_count := false;
  arg_stats := false;
  arg_output := None
|}.

(** * Properties *)

(** ** Examples *)

Example utf8_ascii : utf8_decode_replace (pyb "/etc") = py "/etc".
Proof. reflexivity. Qed.

Example utf8_two : utf8_decode_replace [xc3; xa9] = [233%N].
Proof. reflexivity. Qed.

Example utf8_three : utf8_decode_replace [xe2; x82; xac] = [8364%N].
Proof. reflexivity. Qed.

Example utf8_four : utf8_decode_replace [xf0; x9f; x98; x80] = [128512%N].
Proof. reflexivity. Qed.

Example utf8_bad : utf8_decode_replace [xff; x61; xe2; x82] = [U_FFFD; 97%N; U_FFFD].
Proof. reflexivity. Qed.

Example magic_literal : MLOCATE_MAGIC = x00 :: pyb "mlocate".
Proof. reflexivity. Qed.

Example parse_sample_db :
  parse_mlocate_db sample_db
  = Return ([py "/"; py "/etc"; py "/vmlinuz"; py "/etc/passwd"], py "/", x00).
Proof. vm_compute. reflexivity. Qed.

Example search_text :
  search_paths (H := ascii_lib) sample_paths (py "home") false false false None
  = Return [py "/home/alice/report.txt"; py "/home/bob/notes.md"].
Proof. reflexivity. Qed.

Example search_glob :
  search_paths (H := ascii_lib) sample_paths (py "*.txt") false true false None
  = Return [py "/home/alice/report.txt"].
Proof. reflexivity. Qed.

Example search_regex :
  search_paths (H := ascii_lib) sample_paths (py "^/etc") false false true None
  = Return [py "/etc/passwd"].
Proof. reflexivity. Qed.

Example search_text_nocase :
  search_paths (H := ascii_lib) sample_paths (py "ALICE") true false false None
  = Return [py "/home/alice/report.txt"].
Proof. reflexivity. Qed.

Example search_overflow_regex :
  search_paths (H := ascii_lib) sample_paths (py "a{4294967296}")
    false false true None
  = Raise (OverflowError "the repetition number is too large").
Proof. vm_compute. reflexivity. Qed.

Example search_bad_regex :
  search_paths (H := ascii_lib) sample_paths (py "(") false false true None
  = Raise InvalidPattern.
Proof. reflexivity. Qed.

(** ** The decoder follows the path stream *)

Ltac unfold_bind := unfold mbind, outcome_bind, mret, outcome_ret in *.

Lemma read_entries_stream fuel data dir_path : forall pos all_paths seen,
  read_entries fuel data dir_path pos all_paths seen
  = '(pos', stream) ← entry_stream fuel data dir_path pos;
    Return (pos', (add_paths (all_paths, seen) stream).1,
                  (add_paths (all_paths, seen) stream).2).
Proof.
  induction fuel as [|fuel IH]; intros pos all_paths seen; [reflexivity|].
  cbn [read_entries entry_stream].
  destruct (pos <? length data); [|reflexivity].
  destruct (getitem data pos) as [entry_type| |]; try reflexivity.
  unfold_bind. destruct (Byte.eqb entry_type END_ENTRY); [reflexivity|].
  destruct (bytes_index data x00 (pos + 1)) as [null_idx| |]; try reflexivity.
  set (full_path := if decide (dir_path = py "/") then _ else _).
  transitivity (read_entries fuel data dir_path (null_idx + 1)
                  (add_path (all_paths, seen) full_path).1
                  (add_path (all_paths, seen) full_path).2).
  { unfold add_path. cbn [fst snd].
    repeat case_decide; first [reflexivity | contradiction]. }
  rewrite IH. unfold_bind.
  destruct (entry_stream fuel data dir_path (null_idx + 1)) as [[pos' rest]| |];
    try reflexivity.
  unfold add_paths. cbn [fold_left].
  destruct (add_path (all_paths, seen) full_path). reflexivity.
Qed.

Lemma add_paths_app st s1 s2 :
  add_paths st (s1 ++ s2) = add_paths (add_paths st s1) s2.
Proof. unfold add_paths. apply fold_left_app. Qed.

Lemma read_directories_stream fuel data : forall pos all_paths seen,
  read_directories fuel data pos all_paths seen
  = '(pos', stream) ← directory_stream fuel data pos;
    Return (pos', (add_paths (all_paths, seen) stream).1,
                  (add_paths (all_paths, seen) stream).2).
Proof.
  induction fuel as [|fuel IH]; intros pos all_paths seen; [reflexivity|].
  cbn [read_directories directory_stream].
  destruct (pos <? length data); [|reflexivity].
  destruct (length data <? pos + 16); [reflexivity|].
  destruct (bytes_index data x00 (pos + 16)) as [null_idx| |]; try reflexivity.
  unfold_bind.
  set (dir_path := utf8_decode_replace _).
  transitivity (
    match read_entries fuel data dir_path (null_idx + 1)
            (add_path (all_paths, seen) dir_path).1
            (add_path (all_paths, seen) dir_path).2 with
    | Return (pos0, all_paths0, seen0) =>
        read_directories fuel data pos0 all_paths0 seen0
    | Raise e => Raise e
    | OutOfFuel => OutOfFuel
    end).
  { unfold add_path. cbn [fst snd].
    repeat case_decide; first [reflexivity | contradiction]. }
  rewrite read_entries_stream. unfold_bind.
  destruct (entry_stream fuel data dir_path (null_idx + 1))
    as [[pos1 children]| |]; try reflexivity.
  rewrite IH. unfold_bind.
  destruct (directory_stream fuel data pos1) as [[pos2 rest]| |];
    try reflexivity.
  change (dir_path :: children ++ rest) with ([dir_path] ++ children ++ rest).
  rewrite !add_paths_app.
  change (add_paths (all_paths, seen) [dir_path])
    with (add_path (all_paths, seen) dir_path).
  destruct (add_path (all_paths, seen) dir_path) as [a1 s1].
  cbn [fst snd]. destruct (add_paths (a1, s1) children). reflexivity.
Qed.

(** ** Deduplication keeps first occurrences *)

Lemma elem_of_first_occurrences l p : p ∈ first_occurrences l ↔ p ∈ l.
Proof.
  induction l as [|x l IH]; [reflexivity|].
  cbn [first_occurrences]. rewrite !elem_of_cons, list_elem_of_filter, IH.
  destruct (decide (p = x)); tauto.
Qed.

Lemma NoDup_first_occurrences l : NoDup (first_occurrences l).
Proof.
  induction l as [|x l IH]; [constructor|].
  cbn [first_occurrences]. apply NoDup_cons. split.
  - rewrite list_elem_of_filter. intros [Hne _]. by apply Hne.
  - by apply NoDup_filter.
Qed.

Lemma filter_all (P : pystr -> Prop) `{!forall x, Decision (P x)}
    (l : list pystr) :
  (forall x, x ∈ l -> P x) -> filter P l = l.
Proof.
  induction l as [|x l IH]; intros Hall; [reflexivity|].
  rewrite filter_cons_True by (apply Hall; left).
  f_equal. apply IH. intros y Hy. apply Hall. by right.
Qed.

Lemma first_occurrences_NoDup l : NoDup l -> first_occurrences l = l.
Proof.
  induction 1 as [|x l Hx Hl IH]; [reflexivity|].
  cbn [first_occurrences]. rewrite IH. f_equal.
  apply filter_all. intros y Hy ->. contradiction.
Qed.

(** The first occurrences of a prefix come first, in the same order. *)
Lemma first_occurrences_app l1 l2 :
  first_occurrences (l1 ++ l2)
  = first_occurrences l1
    ++ filter (fun y => y ∉ l1) (first_occurrences l2).
Proof.
  induction l1 as [|x l1 IH].
  - cbn [app first_occurrences]. symmetry. apply filter_all.
    intros y _. apply not_elem_of_nil.
  - cbn [app first_occurrences]. rewrite IH, filter_app. f_equal. f_equal.
    rewrite list_filter_filter. apply list_filter_iff. intros y.
    rewrite not_elem_of_cons. tauto.
Qed.

Lemma first_occurrences_length l :
  length (first_occurrences l) <= length l.
Proof.
  induction l as [|x l IH]; [reflexivity|].
  cbn [first_occurrences length].
  pose proof (length_filter (fun y => y ≠ x) (first_occurrences l)). lia.
Qed.

Lemma consistent_empty : consistent ([], ∅).
Proof. split; [constructor|]. intros p. cbn. set_solver. Qed.

Lemma add_path_consistent st p : consistent st -> consistent (add_path st p).
Proof.
  destruct st as [ap seen]. intros [Hnd Hin]. unfold add_path. cbn [fst snd] in *.
  case_decide as Hp; [|by split].
  split; cbn [fst snd].
  - apply NoDup_app. split_and!; [done| |apply NoDup_singleton].
    intros x Hx Hx'. apply list_elem_of_singleton in Hx' as ->.
    apply Hp, Hin, Hx.
  - intros q. rewrite elem_of_union, elem_of_singleton, elem_of_app,
      list_elem_of_singleton, Hin. tauto.
Qed.

Lemma add_paths_first_occurrences stream : forall st,
  consistent st ->
  consistent (add_paths st stream) /\
  (add_paths st stream).1
  = st.1 ++ filter (fun y => y ∉ st.1) (first_occurrences stream).
Proof.
  induction stream as [|x stream IH]; intros st Hst.
  { cbn. by rewrite app_nil_r. }
  unfold add_paths. cbn [fold_left first_occurrences].
  fold (add_paths (add_path st x) stream).
  destruct (IH (add_path st x) (add_path_consistent _ x Hst)) as [Hc ->].
  split; [exact Hc|].
  destruct st as [ap seen]. destruct Hst as [Hnd Hin].
  unfold add_path. cbn [fst snd] in *. case_decide as Hx; cbn [fst snd].
  - rewrite filter_cons_True by (by rewrite <- Hin).
    rewrite <- app_assoc. cbn [app]. do 2 f_equal.
    rewrite list_filter_filter. apply list_filter_iff. intros y.
    rewrite elem_of_app, list_elem_of_singleton. tauto.
  - assert (x ∈ ap) as Hx' by (apply Hin, Hx).
    rewrite filter_cons_False by tauto. f_equal. symmetry.
    apply list_filter_filter_l. intros y Hy ->. contradiction.
Qed.

Lemma add_paths_empty stream :
  (add_paths ([], ∅) stream).1 = first_occurrences stream.
Proof.
  destruct (add_paths_first_occurrences stream _ consistent_empty) as [_ ->].
  cbn [fst app]. apply filter_all. intros x _. apply not_elem_of_nil.
Qed.

(** ** [bytes] operations *)

Lemma byte_eqb_eq (a b : byte) : Byte.eqb a b = true <-> a = b.
Proof.
  split; [apply Byte.byte_dec_bl | apply Byte.byte_dec_lb].
Qed.

Lemma byte_eqb_neq (a b : byte) : Byte.eqb a b = false <-> a ≠ b.
Proof.
  rewrite <- byte_eqb_eq. destruct (Byte.eqb a b); split; congruence.
Qed.

Lemma find_byte_Some b l i :
  find_byte b l = Some i ->
  i < length l /\ nth_error l i = Some b /\ b ∉ firstn i l.
Proof.
  revert i. induction l as [|x l IH]; intros i; cbn [find_byte]; [discriminate|].
  destruct (Byte.eqb x b) eqn:E.
  - intros [= <-]. apply byte_eqb_eq in E as ->. cbn.
    split_and!; [lia|reflexivity|apply not_elem_of_nil].
  - destruct (find_byte b l) as [j|]; [|discriminate].
    intros [= <-]. destruct (IH j eq_refl) as (Hlt & Hnth & Hnot).
    cbn [length nth_error firstn]. split_and!; [lia|exact Hnth|].
    apply not_elem_of_cons. split; [|exact Hnot].
    apply byte_eqb_neq in E. congruence.
Qed.

Lemma find_byte_None b l : find_byte b l = None <-> b ∉ l.
Proof.
  induction l as [|x l IH]; cbn [find_byte].
  - split; [intros _; apply not_elem_of_nil|reflexivity].
  - rewrite not_elem_of_cons. destruct (Byte.eqb x b) eqn:E.
    + apply byte_eqb_eq in E as ->. split; [discriminate|]. intros [Hne _]. congruence.
    + apply byte_eqb_neq in E. destruct (find_byte b l).
      * split; [discriminate|]. intros [_ Hnot]. apply IH in Hnot. discriminate.
      * split; [|reflexivity]. intros _. split; [congruence|]. by apply IH.
Qed.

(** The first occurrence of [b], when [s] does not hold it. *)
Lemma find_byte_app b s rest :
  b ∉ s -> find_byte b (s ++ b :: rest) = Some (length s).
Proof.
  induction s as [|x s IH]; intros Hnot; cbn [find_byte app length].
  - assert (Byte.eqb b b = true) as -> by (by apply byte_eqb_eq). reflexivity.
  - apply not_elem_of_cons in Hnot as [Hne Hnot].
    assert (Byte.eqb x b = false) as -> by (apply byte_eqb_neq; congruence).
    by rewrite IH.
Qed.

Lemma bytes_index_Return data b pos n :
  bytes_index data b pos = Return n ->
  pos <= n /\ n < length data /\ nth_error data n = Some b.
Proof.
  unfold bytes_index. destruct (find_byte b (skipn pos data)) as [i|] eqn:E;
    [|discriminate].
  intros [= <-]. apply find_byte_Some in E as (Hlt & Hnth & _).
  rewrite length_skipn in Hlt. rewrite nth_error_skipn in Hnth.
  split_and!; [lia|lia|exact Hnth].
Qed.

Lemma bytes_index_Raise data b pos e :
  bytes_index data b pos = Raise e ->
  e = ValueError "subsection not found" /\ b ∉ skipn pos data.
Proof.
  unfold bytes_index. destruct (find_byte b (skipn pos data)) eqn:E;
    [discriminate|].
  intros [= <-]. split; [reflexivity|]. by apply find_byte_None.
Qed.

Lemma bytes_index_not_OutOfFuel data b pos : bytes_index data b pos ≠ OutOfFuel.
Proof. unfold bytes_index. destruct (find_byte _ _); discriminate. Qed.

Lemma getitem_not_OutOfFuel data pos : getitem data pos ≠ OutOfFuel.
Proof. unfold getitem. destruct (nth_error _ _); discriminate. Qed.

(** ** The loops end before the bound

    Every iteration of either loop moves the cursor forward, so a bound
    above the distance to the end of the buffer is never reached. *)

Lemma entry_stream_mono fuel data dir_path : forall pos,
  match entry_stream fuel data dir_path pos with
  | Return (pos', _) => pos <= pos'
  | _ => True
  end.
Proof.
  induction fuel as [|fuel IH]; intros pos; [exact I|].
  cbn [entry_stream]. destruct (pos <? length data); [|cbn; lia].
  destruct (getitem data pos) as [entry_type| |]; try exact I.
  unfold_bind. destruct (Byte.eqb entry_type END_ENTRY); [lia|].
  destruct (bytes_index data x00 (pos + 1)) as [null_idx| |] eqn:E;
    try exact I.
  apply bytes_index_Return in E as (Hle & _).
  specialize (IH (null_idx + 1)).
  destruct (entry_stream fuel data dir_path (null_idx + 1)) as [[pos' rest]| |];
    try exact I.
  lia.
Qed.

Lemma entry_stream_fuel fuel data dir_path : forall pos,
  0 < fuel -> length data < fuel + pos ->
  match entry_stream fuel data dir_path pos with
  | Return (pos', _) => pos <= pos'
  | Raise _ => True
  | OutOfFuel => False
  end.
Proof.
  induction fuel as [|fuel IH]; intros pos Hpos Hlen; [lia|].
  cbn [entry_stream]. destruct (Nat.ltb_spec pos (length data)) as [Hlt|Hge];
    [|cbn; lia].
  pose proof (getitem_not_OutOfFuel data pos) as Hg.
  destruct (getitem data pos) as [entry_type| |]; [|exact I|done].
  unfold_bind. destruct (Byte.eqb entry_type END_ENTRY); [lia|].
  pose proof (bytes_index_not_OutOfFuel data x00 (pos + 1)) as Hb.
  destruct (bytes_index data x00 (pos + 1)) as [null_idx| |] eqn:E;
    [|exact I|done].
  apply bytes_index_Return in E as (Hle & Hlt' & _).
  specialize (IH (null_idx + 1) ltac:(lia) ltac:(lia)).
  destruct (entry_stream fuel data dir_path (null_idx + 1)) as [[pos' rest]| |];
    [lia|exact I|exact IH].
Qed.

Lemma directory_stream_fuel fuel data : forall pos,
  0 < fuel -> length data < fuel + pos ->
  directory_stream fuel data pos ≠ OutOfFuel.
Proof.
  induction fuel as [|fuel IH]; intros pos Hpos Hlen; [lia|].
  cbn [directory_stream]. destruct (Nat.ltb_spec pos (length data)) as [Hlt|Hge];
    [|discriminate].
  destruct (length data <? pos + 16); [discriminate|].
  pose proof (bytes_index_not_OutOfFuel data x00 (pos + 16)) as Hb.
  destruct (bytes_index data x00 (pos + 16)) as [null_idx| |] eqn:E;
    [|discriminate|done].
  apply bytes_index_Return in E as (Hle & Hlt' & _).
  unfold_bind.
  pose proof (entry_stream_fuel fuel data
    (utf8_decode_replace (slice data (pos + 16) null_idx)) (null_idx + 1)
    ltac:(lia) ltac:(lia)) as He.
  destruct (entry_stream fuel data _ (null_idx + 1)) as [[pos1 children]| |];
    [|discriminate|done].
  specialize (IH pos1 ltac:(lia) ltac:(lia)).
  destruct (directory_stream fuel data pos1) as [[pos2 rest]| |];
    [discriminate|discriminate|done].
Qed.

(** [parse_mlocate_db] returns or raises on every buffer: the bound it
    gives the loops is never the reason it stops. *)
Lemma parse_mlocate_db_terminates data : parse_mlocate_db data ≠ OutOfFuel.
Proof.
  unfold parse_mlocate_db.
  destruct (negb _); [discriminate|].
  destruct (struct_unpack_I _) as [config_size| |] eqn:E1; [|discriminate|].
  2:{ unfold struct_unpack_I in E1.
      destruct (slice data _ _) as [|? [|? [|? [|? [|? ?]]]]]; discriminate. }
  unfold_bind.
  pose proof (getitem_not_OutOfFuel data (0 + 8 + 4)) as Hg1.
  destruct (getitem data (0 + 8 + 4)) as [version| |]; [|discriminate|done].
  pose proof (getitem_not_OutOfFuel data (0 + 8 + 4 + 1)) as Hg2.
  destruct (getitem data (0 + 8 + 4 + 1)) as [require_vis| |]; [|discriminate|done].
  pose proof (bytes_index_not_OutOfFuel data x00 (0 + 8 + 4 + 1 + 1 + 2)) as Hb.
  destruct (bytes_index data x00 _) as [null_idx| |]; [|discriminate|done].
  rewrite read_directories_stream. unfold_bind.
  pose proof (directory_stream_fuel (S (length data)) data
    (8 + 4 + 4 + config_size) ltac:(lia) ltac:(lia)) as Hd.
  destruct (directory_stream _ data _) as [[pos stream]| |];
    [discriminate|discriminate|done].
Qed.

(** ** The header *)

Lemma getitem_lt data pos : pos < length data -> exists b, getitem data pos = Return b.
Proof.
  intros Hlt. unfold getitem.
  destruct (nth_error data pos) eqn:E; [eauto|].
  apply nth_error_None in E. lia.
Qed.

(** With an accepted header, the decoder is the record loop started at
    offset [16 + config_size], and returns the root path and version of
    the header. *)
Lemma parse_mlocate_db_header data config_size version null_idx :
  header_ok data config_size version null_idx ->
  parse_mlocate_db data
  = '(_, stream) ← directory_stream (S (length data)) data (16 + config_size);
    Return (first_occurrences stream,
            utf8_decode_replace (slice data 16 null_idx), version).
Proof.
  intros (Hmagic & Hsize & Hver & Hroot).
  unfold parse_mlocate_db. cbn [Nat.add].
  change (slice data 0 8) with (firstn 8 data). rewrite Hmagic.
  rewrite bool_decide_eq_true_2 by reflexivity. cbn [negb].
  rewrite Hsize, Hver. unfold_bind.
  apply bytes_index_Return in Hroot as Hidx. destruct Hidx as (Hle & Hlt & _).
  destruct (getitem_lt data 13 ltac:(lia)) as [vis ->].
  rewrite Hroot, read_directories_stream. unfold_bind.
  destruct (directory_stream _ data _) as [[pos stream]| |]; try reflexivity.
  by rewrite add_paths_empty.
Qed.

(** A returned result comes from an accepted header. *)
Lemma parse_mlocate_db_Return data paths root_path version :
  parse_mlocate_db data = Return (paths, root_path, version) ->
  exists config_size null_idx, header_ok data config_size version null_idx.
Proof.
  unfold parse_mlocate_db. cbn [Nat.add].
  change (slice data 0 8) with (firstn 8 data).
  case_bool_decide as Hmagic; cbn [negb]; [|discriminate].
  unfold_bind.
  destruct (struct_unpack_I _) as [config_size| |] eqn:Hsize; [|discriminate..].
  destruct (getitem data 12) as [v| |] eqn:Hver; [|discriminate..].
  destruct (getitem data 13) as [vis| |]; [|discriminate..].
  destruct (bytes_index data x00 16) as [null_idx| |] eqn:Hroot; [|discriminate..].
  destruct (read_directories _ _ _ _ _) as [[[pos ap] seen]| |]; [|discriminate..].
  intros [= <- <- <-]. exists config_size, null_idx. by split_and!.
Qed.

(** ** Magic rejection *)

(** C6. A buffer whose first 8 bytes are not the magic signature
    [0x00 "mlocate"] is rejected with [InvalidFormat], whatever else it
    holds: no other field is read and no path is returned. *)
Theorem magic_rejection (data : bytes) :
  firstn 8 data ≠ MLOCATE_MAGIC ->
  parse_mlocate_db data = Raise InvalidFormat.
Proof.
  intros Hmagic. unfold parse_mlocate_db. cbn [Nat.add].
  change (slice data 0 8) with (firstn 8 data).
  by rewrite bool_decide_eq_false_2.
Qed.

Lemma magic_rejection_witness :
  parse_mlocate_db (x01 :: pyb "mlocate" ++ skipn 8 sample_db)
  = Raise InvalidFormat.
Proof. apply magic_rejection. vm_compute. discriminate. Defined.

(** ** Deduplication *)

(** C2. When the decoder returns, no path occurs twice in its list, and
    the list is the path stream of the buffer with every path kept at
    its first occurrence, in stream order. *)
Theorem no_duplicate_paths (data : bytes) (paths : list pystr)
    (root_path : pystr) (version : byte) :
  parse_mlocate_db data = Return (paths, root_path, version) ->
  NoDup paths /\
  exists stream, path_stream data = Return stream /\
                 paths = first_occurrences stream.
Proof.
  intros Hparse.
  destruct (parse_mlocate_db_Return _ _ _ _ Hparse) as (K & n & Hok).
  rewrite (parse_mlocate_db_header _ _ _ _ Hok) in Hparse.
  unfold path_stream. destruct Hok as (_ & -> & _). unfold_bind.
  change (8 + 4 + 4 + K) with (16 + K).
  destruct (directory_stream _ data _) as [[pos stream]| |]; [|discriminate..].
  injection Hparse as <- _. split; [apply NoDup_first_occurrences|].
  by exists stream.
Qed.

Lemma no_duplicate_paths_witness :
  NoDup [py "/"; py "/etc"; py "/vmlinuz"; py "/etc/passwd"] /\
  exists stream, path_stream sample_db = Return stream /\
    [py "/"; py "/etc"; py "/vmlinuz"; py "/etc/passwd"]
    = first_occurrences stream.
Proof.
  apply (no_duplicate_paths sample_db _ (py "/") x00).
  vm_compute. reflexivity.
Defined.

Example path_stream_sample_db :
  path_stream sample_db
  = Return [py "/"; py "/etc"; py "/vmlinuz"; py "/etc"; py "/etc/passwd"].
Proof. vm_compute. reflexivity. Qed.

(** ** The record stream starts at offset [16 + config_size] *)

Lemma skipn_agree (d1 d2 : bytes) pos p :
  skipn pos d1 = skipn pos d2 -> pos <= p -> skipn p d1 = skipn p d2.
Proof.
  intros Heq Hle. replace p with (pos + (p - pos)) by lia.
  by rewrite <- !drop_drop, Heq.
Qed.

Lemma getitem_agree (d1 d2 : bytes) p :
  skipn p d1 = skipn p d2 -> getitem d1 p = getitem d2 p.
Proof.
  intros Heq. unfold getitem.
  replace (nth_error d1 p) with (nth_error (skipn p d1) 0)
    by (rewrite nth_error_skipn; f_equal; lia).
  replace (nth_error d2 p) with (nth_error (skipn p d2) 0)
    by (rewrite nth_error_skipn; f_equal; lia).
  by rewrite Heq.
Qed.

Lemma bytes_index_agree (d1 d2 : bytes) b p :
  skipn p d1 = skipn p d2 -> bytes_index d1 b p = bytes_index d2 b p.
Proof. intros Heq. unfold bytes_index. by rewrite Heq. Qed.

Lemma slice_agree (d1 d2 : bytes) a b :
  skipn a d1 = skipn a d2 -> slice d1 a b = slice d2 a b.
Proof. intros Heq. unfold slice. by rewrite Heq. Qed.

Lemma entry_stream_agree fuel (d1 d2 : bytes) dir_path :
  length d1 = length d2 -> forall pos,
  skipn pos d1 = skipn pos d2 ->
  entry_stream fuel d1 dir_path pos = entry_stream fuel d2 dir_path pos.
Proof.
  intros Hlen. induction fuel as [|fuel IH]; intros pos Heq; [reflexivity|].
  cbn [entry_stream]. rewrite <- Hlen.
  destruct (pos <? length d1); [|reflexivity].
  rewrite <- (getitem_agree d1 d2 pos Heq).
  destruct (getitem d1 pos) as [entry_type| |]; try reflexivity.
  unfold_bind. destruct (Byte.eqb entry_type END_ENTRY); [reflexivity|].
  pose proof (skipn_agree d1 d2 pos (pos + 1) Heq ltac:(lia)) as Heq1.
  rewrite <- (bytes_index_agree d1 d2 x00 (pos + 1) Heq1).
  destruct (bytes_index d1 x00 (pos + 1)) as [null_idx| |] eqn:E;
    try reflexivity.
  apply bytes_index_Return in E as (Hle & _).
  rewrite <- (slice_agree d1 d2 (pos + 1) null_idx Heq1).
  rewrite <- (IH (null_idx + 1)) by (apply (skipn_agree d1 d2 pos); [done|lia]).
  reflexivity.
Qed.

Lemma directory_stream_agree fuel (d1 d2 : bytes) :
  length d1 = length d2 -> forall pos,
  skipn pos d1 = skipn pos d2 ->
  directory_stream fuel d1 pos = directory_stream fuel d2 pos.
Proof.
  intros Hlen. induction fuel as [|fuel IH]; intros pos Heq; [reflexivity|].
  cbn [directory_stream]. rewrite <- Hlen.
  destruct (pos <? length d1); [|reflexivity].
  destruct (length d1 <? pos + 16); [reflexivity|].
  pose proof (skipn_agree d1 d2 pos (pos + 16) Heq ltac:(lia)) as Heq1.
  rewrite <- (bytes_index_agree d1 d2 x00 (pos + 16) Heq1). unfold_bind.
  destruct (bytes_index d1 x00 (pos + 16)) as [null_idx| |] eqn:E;
    try reflexivity.
  apply bytes_index_Return in E as (Hle & _).
  rewrite <- (slice_agree d1 d2 (pos + 16) null_idx Heq1).
  rewrite <- (entry_stream_agree fuel d1 d2 _ Hlen (null_idx + 1))
    by (apply (skipn_agree d1 d2 pos); [done|lia]).
  pose proof (entry_stream_mono fuel d1
    (utf8_decode_replace (slice d1 (pos + 16) null_idx)) (null_idx + 1)) as Hmono.
  destruct (entry_stream fuel d1 _ (null_idx + 1)) as [[pos1 children]| |];
    try reflexivity.
  rewrite <- (IH pos1) by (apply (skipn_agree d1 d2 pos); [done|lia]).
  reflexivity.
Qed.

Lemma directory_stream_past_end fuel (data : bytes) pos :
  length data <= pos ->
  directory_stream (S fuel) data pos = Return (pos, []).
Proof.
  intros Hle. cbn [directory_stream].
  destruct (Nat.ltb_spec pos (length data)); [lia|reflexivity].
Qed.

Lemma directory_stream_suffix (d1 d2 : bytes) pos :
  skipn pos d1 = skipn pos d2 ->
  directory_stream (S (length d1)) d1 pos
  = directory_stream (S (length d2)) d2 pos.
Proof.
  intros Heq. destruct (Nat.le_gt_cases (length d1) pos) as [Hle|Hgt].
  - assert (length d2 <= pos).
    { apply (f_equal length) in Heq. rewrite !length_skipn in Heq. lia. }
    by rewrite !directory_stream_past_end.
  - assert (length d1 = length d2) as Hlen.
    { apply (f_equal length) in Heq. rewrite !length_skipn in Heq. lia. }
    rewrite <- Hlen. by apply directory_stream_agree.
Qed.

(** C3. The record stream is read from byte offset [16 + config_size],
    whatever the root path is: two buffers with accepted headers, the
    same [config_size] and the same bytes from that offset on give the
    same path list (or the same failure); that list is the path stream
    read from that offset, deduplicated; and when the buffer holds a
    record there, the first path returned is the string that follows the
    16-byte record header at [16 + config_size]. *)
Theorem config_block_skip (d1 d2 : bytes) (config_size : nat)
    (v1 v2 : byte) (n1 n2 : nat) :
  header_ok d1 config_size v1 n1 ->
  header_ok d2 config_size v2 n2 ->
  skipn (16 + config_size) d1 = skipn (16 + config_size) d2 ->
  paths_of (parse_mlocate_db d1) = paths_of (parse_mlocate_db d2) /\
  paths_of (parse_mlocate_db d1)
  = ('(_, stream) ← directory_stream (S (length d1)) d1 (16 + config_size);
     Return (first_occurrences stream)) /\
  forall null_idx paths root_path version,
    16 + config_size + 16 <= length d1 ->
    bytes_index d1 x00 (16 + config_size + 16) = Return null_idx ->
    parse_mlocate_db d1 = Return (paths, root_path, version) ->
    head paths
    = Some (utf8_decode_replace (slice d1 (16 + config_size + 16) null_idx)).
Proof.
  intros Hok1 Hok2 Heq.
  rewrite (parse_mlocate_db_header _ _ _ _ Hok1),
          (parse_mlocate_db_header _ _ _ _ Hok2).
  rewrite <- (directory_stream_suffix d1 d2 _ Heq).
  unfold paths_of. unfold_bind. split_and!.
  - by destruct (directory_stream _ d1 _) as [[pos stream]| |].
  - by destruct (directory_stream _ d1 _) as [[pos stream]| |].
  - intros null_idx paths root_path version Hlen Hidx.
    cbn [directory_stream].
    destruct (Nat.ltb_spec (16 + config_size) (length d1)); [|lia].
    destruct (Nat.ltb_spec (length d1) (16 + config_size + 16)); [lia|].
    rewrite Hidx. unfold_bind.
    destruct (entry_stream _ d1 _ _) as [[pos1 children]| |]; [|discriminate..].
    destruct (directory_stream _ d1 pos1) as [[pos2 rest]| |]; [|discriminate..].
    intros [= <- _ _]. reflexivity.
Qed.

Lemma config_block_skip_witness :
  paths_of (parse_mlocate_db (header_slash ++ sample_records))
  = paths_of (parse_mlocate_db (header_home ++ sample_records)) /\
  paths_of (parse_mlocate_db (header_slash ++ sample_records))
  = ('(_, stream) ← directory_stream
        (S (length (header_slash ++ sample_records)))
        (header_slash ++ sample_records) (16 + 6);
     Return (first_occurrences stream)) /\
  forall null_idx paths root_path version,
    16 + 6 + 16 <= length (header_slash ++ sample_records) ->
    bytes_index (header_slash ++ sample_records) x00 (16 + 6 + 16)
    = Return null_idx ->
    parse_mlocate_db (header_slash ++ sample_records)
    = Return (paths, root_path, version) ->
    head paths
    = Some (utf8_decode_replace
              (slice (header_slash ++ sample_records) (16 + 6 + 16) null_idx)).
Proof.
  apply (config_block_skip _ _ 6 x00 x00 17 21).
  - repeat split.
  - repeat split.
  - reflexivity.
Defined.

Example parse_header_slash :
  parse_mlocate_db (header_slash ++ sample_records)
  = Return ([py "/"; py "/etc"; py "/vmlinuz"; py "/etc/passwd"], py "/", x00).
Proof. vm_compute. reflexivity. Qed.

Example parse_header_home :
  parse_mlocate_db (header_home ++ sample_records)
  = Return ([py "/"; py "/etc"; py "/vmlinuz"; py "/etc/passwd"], py "/home", x00).
Proof. vm_compute. reflexivity. Qed.

(** ** A bound that is large enough can be replaced by any other *)

Lemma entry_stream_fuel_mono f data dir_path : forall f' pos,
  f <= f' -> entry_stream f data dir_path pos ≠ OutOfFuel ->
  entry_stream f' data dir_path pos = entry_stream f data dir_path pos.
Proof.
  induction f as [|f IH]; intros f' pos Hle Hne; [done|].
  destruct f' as [|f']; [lia|]. cbn [entry_stream] in *.
  destruct (pos <? length data); [|reflexivity].
  destruct (getitem data pos) as [entry_type| |]; try reflexivity.
  unfold_bind. destruct (Byte.eqb entry_type END_ENTRY); [reflexivity|].
  destruct (bytes_index data x00 (pos + 1)) as [null_idx| |]; try reflexivity.
  rewrite (IH f' (null_idx + 1)); [reflexivity|lia|].
  intros Hout. by rewrite Hout in Hne.
Qed.

Lemma directory_stream_fuel_mono f data : forall f' pos,
  f <= f' -> directory_stream f data pos ≠ OutOfFuel ->
  directory_stream f' data pos = directory_stream f data pos.
Proof.
  induction f as [|f IH]; intros f' pos Hle Hne; [done|].
  destruct f' as [|f']; [lia|]. cbn [directory_stream] in *.
  destruct (pos <? length data); [|reflexivity].
  destruct (length data <? pos + 16); [reflexivity|].
  destruct (bytes_index data x00 (pos + 16)) as [null_idx| |]; try reflexivity.
  unfold_bind.
  rewrite (entry_stream_fuel_mono f data _ f' (null_idx + 1)); [|lia|].
  2:{ intros Hout. by rewrite Hout in Hne. }
  destruct (entry_stream f data _ (null_idx + 1)) as [[pos1 children]| |];
    try reflexivity.
  rewrite (IH f' pos1); [reflexivity|lia|].
  intros Hout. by rewrite Hout in Hne.
Qed.

Lemma entry_stream_enough f f' data dir_path pos :
  0 < f -> length data < f + pos -> 0 < f' -> length data < f' + pos ->
  entry_stream f data dir_path pos = entry_stream f' data dir_path pos.
Proof.
  intros H1 H2 H3 H4.
  assert (forall g, 0 < g -> length data < g + pos ->
                    entry_stream g data dir_path pos ≠ OutOfFuel) as Hne.
  { intros g Hg1 Hg2 Hout.
    pose proof (entry_stream_fuel g data dir_path pos Hg1 Hg2) as Hf.
    by rewrite Hout in Hf. }
  destruct (Nat.le_ge_cases f f').
  - symmetry. apply entry_stream_fuel_mono; auto.
  - apply entry_stream_fuel_mono; auto.
Qed.

Lemma directory_stream_enough f f' data pos :
  0 < f -> length data < f + pos -> 0 < f' -> length data < f' + pos ->
  directory_stream f data pos = directory_stream f' data pos.
Proof.
  intros H1 H2 H3 H4. destruct (Nat.le_ge_cases f f').
  - symmetry. apply directory_stream_fuel_mono; [done|].
    by apply directory_stream_fuel.
  - apply directory_stream_fuel_mono; [done|].
    by apply directory_stream_fuel.
Qed.

(** One iteration of the inner loop, the bound left as it is. *)
Lemma entry_stream_unfold' fuel fuel' data dir_path pos :
  length data < fuel -> length data < fuel' ->
  entry_stream fuel data dir_path pos
  = if pos <? length data then
      entry_type ← getitem data pos;
      if Byte.eqb entry_type END_ENTRY then Return (pos + 1, [])
      else
        null_idx ← bytes_index data x00 (pos + 1);
        '(pos', rest) ← entry_stream fuel' data dir_path (null_idx + 1);
        Return (pos',
          (if decide (dir_path = py "/")
           then py "/" ++ utf8_decode_replace (slice data (pos + 1) null_idx)
           else dir_path ++ py "/"
                ++ utf8_decode_replace (slice data (pos + 1) null_idx))
          :: rest)
    else Return (pos, []).
Proof.
  intros Hfuel Hfuel'. destruct fuel as [|fuel]; [lia|]. cbn [entry_stream].
  destruct (Nat.ltb_spec pos (length data)) as [Hlt|]; [|reflexivity].
  destruct (getitem data pos) as [entry_type| |]; try reflexivity.
  unfold_bind. destruct (Byte.eqb entry_type END_ENTRY); [reflexivity|].
  destruct (bytes_index data x00 (pos + 1)) as [null_idx| |]; try reflexivity.
  rewrite (entry_stream_enough fuel fuel') by lia. reflexivity.
Qed.

Lemma entry_stream_unfold fuel data dir_path pos :
  length data < fuel ->
  entry_stream fuel data dir_path pos
  = if pos <? length data then
      entry_type ← getitem data pos;
      if Byte.eqb entry_type END_ENTRY then Return (pos + 1, [])
      else
        null_idx ← bytes_index data x00 (pos + 1);
        '(pos', rest) ← entry_stream fuel data dir_path (null_idx + 1);
        Return (pos',
          (if decide (dir_path = py "/")
           then py "/" ++ utf8_decode_replace (slice data (pos + 1) null_idx)
           else dir_path ++ py "/"
                ++ utf8_decode_replace (slice data (pos + 1) null_idx))
          :: rest)
    else Return (pos, []).
Proof. intros Hfuel. by apply entry_stream_unfold'. Qed.

(** One iteration of the outer loop, the bound left as it is. *)
Lemma directory_stream_unfold' fuel fuel' data pos :
  length data < fuel -> length data < fuel' ->
  directory_stream fuel data pos
  = if pos <? length data then
      if length data <? pos + 16 then Return (pos, [])
      else
        null_idx ← bytes_index data x00 (pos + 16);
        '(pos1, children) ← entry_stream fuel' data
           (utf8_decode_replace (slice data (pos + 16) null_idx)) (null_idx + 1);
        '(pos2, rest) ← directory_stream fuel' data pos1;
        Return (pos2,
          utf8_decode_replace (slice data (pos + 16) null_idx)
          :: children ++ rest)
    else Return (pos, []).
Proof.
  intros Hfuel Hfuel'. destruct fuel as [|fuel]; [lia|]. cbn [directory_stream].
  destruct (Nat.ltb_spec pos (length data)) as [Hlt|]; [|reflexivity].
  destruct (length data <? pos + 16); [reflexivity|].
  destruct (bytes_index data x00 (pos + 16)) as [null_idx| |]; try reflexivity.
  unfold_bind.
  rewrite (entry_stream_enough fuel fuel') by lia.
  pose proof (entry_stream_mono fuel' data
    (utf8_decode_replace (slice data (pos + 16) null_idx)) (null_idx + 1)) as Hm.
  destruct (entry_stream fuel' data _ (null_idx + 1))
    as [[pos1 children]| |]; try reflexivity.
  rewrite (directory_stream_enough fuel fuel') by lia. reflexivity.
Qed.

Lemma directory_stream_unfold fuel data pos :
  length data < fuel ->
  directory_stream fuel data pos
  = if pos <? length data then
      if length data <? pos + 16 then Return (pos, [])
      else
        null_idx ← bytes_index data x00 (pos + 16);
        '(pos1, children) ← entry_stream fuel data
           (utf8_decode_replace (slice data (pos + 16) null_idx)) (null_idx + 1);
        '(pos2, rest) ← directory_stream fuel data pos1;
        Return (pos2,
          utf8_decode_replace (slice data (pos + 16) null_idx)
          :: children ++ rest)
    else Return (pos, []).
Proof. intros Hfuel. by apply directory_stream_unfold'. Qed.

(** ** Reading a record stream *)

(** Reading at [pos] depends on the bytes from [pos] on only. *)
Section Cursor.
Context (data : bytes) (pos : nat).

Lemma cursor_lt b rest : skipn pos data = b :: rest -> pos < length data.
Proof.
  intros Heq. apply (f_equal length) in Heq.
  rewrite length_skipn in Heq. cbn in Heq. lia.
Qed.

Lemma cursor_getitem b rest :
  skipn pos data = b :: rest -> getitem data pos = Return b.
Proof.
  intros Heq. unfold getitem.
  replace (nth_error data pos) with (nth_error (skipn pos data) 0)
    by (rewrite nth_error_skipn; f_equal; lia).
  by rewrite Heq.
Qed.

Lemma cursor_advance s rest :
  skipn pos data = s ++ rest -> skipn (pos + length s) data = rest.
Proof.
  intros Heq. rewrite <- drop_drop, Heq. by rewrite drop_app_length.
Qed.

Lemma cursor_index b s rest :
  skipn pos data = s ++ b :: rest -> b ∉ s ->
  bytes_index data b pos = Return (pos + length s).
Proof.
  intros Heq Hnot. unfold bytes_index. by rewrite Heq, find_byte_app.
Qed.

Lemma cursor_index_absent b :
  b ∉ skipn pos data ->
  bytes_index data b pos = Raise (ValueError "subsection not found").
Proof.
  intros Hnot. unfold bytes_index.
  by apply find_byte_None in Hnot as ->.
Qed.

Lemma cursor_slice s rest :
  skipn pos data = s ++ rest -> slice data pos (pos + length s) = s.
Proof.
  intros Heq. unfold slice. rewrite Heq.
  replace (pos + length s - pos) with (length s) by lia.
  by rewrite take_app_length.
Qed.
End Cursor.

Section Streams.
Context (data : bytes) (fuel : nat) (Hfuel : length data < fuel).

(** The inner loop at an [END_ENTRY] byte. *)
Lemma entry_stream_end dir_path pos rest :
  skipn pos data = END_ENTRY :: rest ->
  entry_stream fuel data dir_path pos = Return (pos + 1, []).
Proof.
  intros Heq. rewrite entry_stream_unfold by done.
  destruct (Nat.ltb_spec pos (length data)) as [|Hge];
    [|apply cursor_lt in Heq; lia].
  by rewrite (cursor_getitem _ _ _ _ Heq).
Qed.

(** The inner loop at the end of the buffer. *)
Lemma entry_stream_eof dir_path pos :
  skipn pos data = [] ->
  entry_stream fuel data dir_path pos = Return (pos, []).
Proof.
  intros Heq. rewrite entry_stream_unfold by done.
  destruct (Nat.ltb_spec pos (length data)) as [Hlt|]; [|reflexivity].
  apply (f_equal length) in Heq. rewrite length_skipn in Heq. cbn in Heq. lia.
Qed.

(** The inner loop at an entry. *)
Lemma entry_stream_entry dir_path pos e rest :
  skipn pos data = encode_entry e ++ rest -> entry_ok e ->
  entry_stream fuel data dir_path pos
  = '(pos', stream) ← entry_stream fuel data dir_path
                        (pos + length (encode_entry e));
    Return (pos', child_path dir_path (utf8_decode_replace e.2) :: stream).
Proof.
  destruct e as [ty name]. unfold encode_entry. cbn [fst snd].
  intros Heq [Hty Hname]. cbn [fst snd] in *.
  rewrite entry_stream_unfold by done.
  destruct (Nat.ltb_spec pos (length data)) as [|Hge];
    [|apply cursor_lt in Heq; lia].
  rewrite (cursor_getitem _ _ _ _ Heq). unfold_bind.
  assert (Byte.eqb ty END_ENTRY = false) as -> by (by apply byte_eqb_neq).
  assert (skipn (pos + 1) data = name ++ x00 :: rest) as Heq1.
  { apply (cursor_advance data pos [ty]). rewrite Heq.
    cbn [app]. by rewrite <- app_assoc. }
  rewrite (cursor_index _ _ _ _ _ Heq1 Hname).
  rewrite (cursor_slice _ _ _ _ Heq1).
  cbn [length]. rewrite length_app. cbn [length].
  replace (pos + 1 + length name + 1) with (pos + S (length name + 1)) by lia.
  reflexivity.
Qed.

(** The inner loop at an entry whose name is cut by the end of the
    buffer. *)
Lemma entry_stream_truncated dir_path pos ty partial :
  skipn pos data = ty :: partial -> ty ≠ END_ENTRY -> x00 ∉ partial ->
  entry_stream fuel data dir_path pos = Raise CorruptRecord.
Proof.
  intros Heq Hty Hnot. rewrite entry_stream_unfold by done.
  destruct (Nat.ltb_spec pos (length data)) as [|Hge];
    [|apply cursor_lt in Heq; lia].
  rewrite (cursor_getitem _ _ _ _ Heq). unfold_bind.
  assert (Byte.eqb ty END_ENTRY = false) as -> by (by apply byte_eqb_neq).
  rewrite cursor_index_absent; [reflexivity|].
  by rewrite (cursor_advance data pos [ty] partial Heq : skipn (pos + 1) data = _).
Qed.

(** The inner loop over a run of entries. *)
Lemma entry_stream_entries dir_path es : forall pos rest,
  skipn pos data = encode_entries es ++ rest -> Forall entry_ok es ->
  entry_stream fuel data dir_path pos
  = '(pos', stream) ← entry_stream fuel data dir_path
                        (pos + length (encode_entries es));
    Return (pos',
      map (fun e => child_path dir_path (utf8_decode_replace e.2)) es
      ++ stream).
Proof.
  induction es as [|e es IH]; intros pos rest Heq Hok.
  - cbn. rewrite Nat.add_0_r. unfold_bind.
    by destruct (entry_stream fuel data dir_path pos) as [[??]| |].
  - apply Forall_cons in Hok as [He Hes].
    unfold encode_entries in *. cbn [flat_map] in *.
    rewrite <- app_assoc in Heq.
    rewrite (entry_stream_entry _ _ _ _ Heq He).
    apply cursor_advance in Heq.
    rewrite (IH _ _ Heq Hes). rewrite length_app, Nat.add_assoc. unfold_bind.
    by destruct (entry_stream fuel data dir_path _) as [[??]| |].
Qed.
End Streams.

Section RecordStreams.
Context (data : bytes) (fuel : nat) (Hfuel : length data < fuel).

(** The outer loop with fewer than 16 bytes left. *)
Lemma directory_stream_eof pos :
  length (skipn pos data) < 16 ->
  directory_stream fuel data pos = Return (pos, []).
Proof.
  intros Hshort. rewrite length_skipn in Hshort.
  rewrite directory_stream_unfold by done.
  destruct (Nat.ltb_spec pos (length data)); [|reflexivity].
  destruct (Nat.ltb_spec (length data) (pos + 16)); [reflexivity|lia].
Qed.

(** The outer loop at a record. *)
Lemma directory_stream_record pos r rest :
  skipn pos data = encode_record r ++ rest -> record_ok r ->
  directory_stream fuel data pos
  = '(pos', stream) ← directory_stream fuel data
                        (pos + length (encode_record r));
    Return (pos', record_paths r ++ stream).
Proof.
  destruct r as [hdr path es]. unfold encode_record, record_ok, record_paths.
  cbn [rec_header rec_path rec_entries].
  intros Heq (Hhdr & Hpath & Hes).
  rewrite <- !app_assoc in Heq. cbn [app] in Heq.
  assert (pos + 16 <= length data) as Hlen.
  { apply (f_equal length) in Heq.
    rewrite length_skipn, length_app in Heq. lia. }
  assert (skipn (pos + 16) data
          = path ++ x00 :: encode_entries es ++ END_ENTRY :: rest) as Heq1.
  { rewrite <- Hhdr. by apply cursor_advance. }
  assert (pos < length data) as Hlt.
  { apply (f_equal length) in Heq1.
    rewrite length_skipn, length_app in Heq1. cbn [length] in Heq1. lia. }
  rewrite directory_stream_unfold by done.
  destruct (Nat.ltb_spec pos (length data)); [|lia].
  destruct (Nat.ltb_spec (length data) (pos + 16)); [lia|].
  rewrite (cursor_index _ _ _ _ _ Heq1 Hpath). unfold_bind.
  rewrite (cursor_slice _ _ _ _ Heq1).
  assert (skipn (pos + 16 + length path + 1) data
          = encode_entries es ++ END_ENTRY :: rest) as Heq2.
  { rewrite <- Nat.add_assoc.
    change (length path + 1) with (length path + length [x00]).
    rewrite <- length_app. apply cursor_advance.
    by rewrite <- app_assoc. }
  rewrite (entry_stream_entries data fuel Hfuel _ es _ _ Heq2 Hes).
  apply cursor_advance in Heq2.
  rewrite (entry_stream_end data fuel Hfuel _ _ _ Heq2). unfold_bind.
  rewrite app_nil_r, !length_app, Hhdr. cbn [length].
  replace (pos + 16 + length path + 1 + length (encode_entries es) + 1)
    with (pos + (16 + (length path + (1 + (length (encode_entries es) + 1)))))
    by lia.
  by destruct (directory_stream fuel data _) as [[??]| |].
Qed.

(** The outer loop over a run of records. *)
Lemma directory_stream_records rs : forall pos rest,
  skipn pos data = encode_records rs ++ rest -> Forall record_ok rs ->
  directory_stream fuel data pos
  = '(pos', stream) ← directory_stream fuel data
                        (pos + length (encode_records rs));
    Return (pos', records_paths rs ++ stream).
Proof.
  induction rs as [|r rs IH]; intros pos rest Heq Hok.
  - cbn. rewrite Nat.add_0_r. unfold_bind.
    by destruct (directory_stream fuel data pos) as [[??]| |].
  - apply Forall_cons in Hok as [Hr Hrs].
    unfold encode_records, records_paths in *. cbn [flat_map] in *.
    rewrite <- app_assoc in Heq.
    rewrite (directory_stream_record _ _ _ Heq Hr).
    apply cursor_advance in Heq.
    rewrite (IH _ _ Heq Hrs). rewrite length_app, Nat.add_assoc. unfold_bind.
    destruct (directory_stream fuel data _) as [[??]| |]; try reflexivity.
    by rewrite app_assoc.
Qed.

(** The outer loop at a record whose path is cut by the end of the
    buffer. *)
Lemma directory_stream_truncated_path pos hdr partial :
  skipn pos data = hdr ++ partial -> length hdr = 16 -> x00 ∉ partial ->
  directory_stream fuel data pos = Raise CorruptRecord.
Proof.
  intros Heq Hhdr Hnot.
  assert (pos + 16 <= length data /\ pos < length data) as [Hlen Hlt].
  { apply (f_equal length) in Heq.
    rewrite length_skipn, length_app in Heq. lia. }
  rewrite directory_stream_unfold by done.
  destruct (Nat.ltb_spec pos (length data)); [|lia].
  destruct (Nat.ltb_spec (length data) (pos + 16)); [lia|].
  rewrite cursor_index_absent; [reflexivity|].
  rewrite <- Hhdr. by rewrite (cursor_advance _ _ _ _ Heq).
Qed.

(** The outer loop at a record with the name of an entry cut by the
    end of the buffer. *)
Lemma directory_stream_truncated_name pos hdr path es ty partial :
  skipn pos data
  = hdr ++ path ++ [x00] ++ encode_entries es ++ ty :: partial ->
  length hdr = 16 -> x00 ∉ path -> Forall entry_ok es ->
  ty ≠ END_ENTRY -> x00 ∉ partial ->
  directory_stream fuel data pos = Raise CorruptRecord.
Proof.
  intros Heq Hhdr Hpath Hes Hty Hnot.
  assert (pos + 16 <= length data) as Hlen.
  { apply (f_equal length) in Heq.
    rewrite length_skipn, length_app in Heq. lia. }
  assert (skipn (pos + 16) data
          = path ++ x00 :: encode_entries es ++ ty :: partial) as Heq1.
  { rewrite <- Hhdr. by apply cursor_advance. }
  assert (pos < length data) as Hlt.
  { apply (f_equal length) in Heq1.
    rewrite length_skipn, length_app in Heq1. cbn [length] in Heq1. lia. }
  rewrite directory_stream_unfold by done.
  destruct (Nat.ltb_spec pos (length data)); [|lia].
  destruct (Nat.ltb_spec (length data) (pos + 16)); [lia|].
  rewrite (cursor_index _ _ _ _ _ Heq1 Hpath). unfold_bind.
  rewrite (cursor_slice _ _ _ _ Heq1).
  assert (skipn (pos + 16 + length path + 1) data
          = encode_entries es ++ ty :: partial) as Heq2.
  { rewrite <- Nat.add_assoc.
    change (length path + 1) with (length path + length [x00]).
    rewrite <- length_app. apply cursor_advance.
    by rewrite <- app_assoc. }
  rewrite (entry_stream_entries data fuel Hfuel _ es _ _ Heq2 Hes).
  apply cursor_advance in Heq2.
  by rewrite (entry_stream_truncated data fuel Hfuel _ _ _ _ Heq2 Hty Hnot).
Qed.
End RecordStreams.

(** ** Decoding a record stream *)

(** A buffer whose record stream is a run of records, followed by fewer
    than 16 bytes, decodes to the paths of the records, each kept at its
    first occurrence. *)
Lemma parse_mlocate_db_records data config_size version null_idx rs tail :
  header_ok data config_size version null_idx ->
  skipn (16 + config_size) data = encode_records rs ++ tail ->
  length tail < 16 ->
  Forall record_ok rs ->
  parse_mlocate_db data
  = Return (first_occurrences (records_paths rs),
            utf8_decode_replace (slice data 16 null_idx), version).
Proof.
  intros Hok Heq Htail Hrs.
  rewrite (parse_mlocate_db_header _ _ _ _ Hok).
  rewrite (directory_stream_records data (S (length data)) ltac:(lia)
             rs _ _ Heq Hrs).
  apply cursor_advance in Heq.
  rewrite (directory_stream_eof data (S (length data)) ltac:(lia));
    [|rewrite Heq; exact Htail].
  unfold_bind. by rewrite app_nil_r.
Qed.

Lemma length_records_paths rs M :
  Forall (fun r => length (rec_entries r) = M) rs ->
  length (records_paths rs) = length rs + length rs * M.
Proof.
  induction 1 as [|r rs Hr _ IH]; [reflexivity|].
  unfold records_paths in *. cbn [flat_map length].
  rewrite length_app, IH. unfold record_paths. cbn [length].
  rewrite length_map, Hr. lia.
Qed.

Lemma elem_of_records_paths rs p :
  p ∈ records_paths rs <-> exists r, r ∈ rs /\ p ∈ record_paths r.
Proof.
  unfold records_paths. rewrite list_elem_of_In, in_flat_map.
  split; intros (r & Hr & Hp); exists r; by rewrite ?list_elem_of_In in *.
Qed.

(** C1. A buffer with an accepted header whose record stream, from the
    offset where the decoder starts to read it, is made of [N] directory
    records of [M] child entries each, all [N + N * M] paths of which
    are pairwise different, decodes to exactly these paths, in the order
    of the byte stream. *)
Theorem round_trip (data : bytes) (config_size : nat) (version : byte)
    (null_idx : nat) (rs : list dir_record) (N M : nat) :
  header_ok data config_size version null_idx ->
  skipn (16 + config_size) data = encode_records rs ->
  Forall record_ok rs ->
  length rs = N ->
  Forall (fun r => length (rec_entries r) = M) rs ->
  NoDup (records_paths rs) ->
  exists paths root_path,
    parse_mlocate_db data = Return (paths, root_path, version) /\
    paths = records_paths rs /\
    length paths = N + N * M /\
    NoDup paths.
Proof.
  intros Hok Heq Hrs HN HM Hnd.
  exists (records_paths rs), (utf8_decode_replace (slice data 16 null_idx)).
  split_and!; [|reflexivity| |exact Hnd].
  - rewrite (parse_mlocate_db_records _ _ _ _ rs [] Hok);
      [|by rewrite app_nil_r|cbn; lia|exact Hrs].
    by rewrite first_occurrences_NoDup.
  - rewrite <- HN. by apply length_records_paths.
Qed.

Lemma round_trip_witness :
  exists paths root_path,
    parse_mlocate_db (header_slash ++ encode_records usr_var_records)
    = Return (paths, root_path, x00) /\
    paths = records_paths usr_var_records /\
    length paths = 2 + 2 * 2 /\
    NoDup paths.
Proof.
  apply (round_trip _ 6 x00 17 usr_var_records 2 2).
  - repeat split.
  - reflexivity.
  - apply (bool_decide_unpack _). vm_compute. reflexivity.
  - reflexivity.
  - repeat constructor.
  - apply (bool_decide_unpack _). vm_compute. reflexivity.
Defined.

(** The directories of [nested_records] are different and so are the
    child names of each, yet the decoder returns three paths, not
    [2 + 2 * 1]: the child ["a"] of ["/"] and the directory ["/a"] are the
    same path. The buffer has its record stream where the decoder reads
    it, at [16 + config_size]; on [format_layout_db], which has the root
    path and the configuration block before its single record of one
    child, the decoder returns three paths as well, not [1 + 1 * 1]. *)
Lemma round_trip_counterexample :
  (header_ok (header_slash ++ encode_records nested_records) 6 x00 17 /\
   skipn (16 + 6) (header_slash ++ encode_records nested_records)
   = encode_records nested_records /\
   Forall record_ok nested_records /\
   length nested_records = 2 /\
   Forall (fun r => length (rec_entries r) = 1) nested_records /\
   NoDup (map rec_path nested_records) /\
   Forall (fun r => NoDup (map snd (rec_entries r))) nested_records /\
   parse_mlocate_db (header_slash ++ encode_records nested_records)
   = Return ([py "/"; py "/a"; py "/a/b"], py "/", x00) /\
   length [py "/"; py "/a"; py "/a/b"] ≠ 2 + 2 * 1) /\
  (header_ok format_layout_db 4 x00 17 /\
   skipn (16 + (length (pyb "/") + 1) + 4) format_layout_db
   = encode_records format_layout_records /\
   Forall record_ok format_layout_records /\
   length format_layout_records = 1 /\
   Forall (fun r => length (rec_entries r) = 1) format_layout_records /\
   parse_mlocate_db format_layout_db
   = Return ([py ""; py "//"; py "/etc"], py "/", x00) /\
   length [py ""; py "//"; py "/etc"] ≠ 1 + 1 * 1).
Proof.
  split; split_and!;
    first [ by repeat split
          | by repeat constructor
          | by apply (bool_decide_unpack _); vm_compute
          | by vm_compute
          | cbn; lia ].
Qed.

(** ** Root normalization *)

(** C9. In a decoded record stream, a child entry with the name [n] of a
    directory record whose path is exactly ["/"] gives the path
    ["/" + n], and a child entry of any other directory [d] gives
    [d + "/" + n]; the decoder returns no path other than the directory
    paths and these child paths. *)
Theorem root_normalization (data : bytes) (config_size : nat)
    (version : byte) (null_idx : nat) (rs : list dir_record) :
  header_ok data config_size version null_idx ->
  skipn (16 + config_size) data = encode_records rs ->
  Forall record_ok rs ->
  exists paths root_path,
    parse_mlocate_db data = Return (paths, root_path, version) /\
    (forall r e, r ∈ rs -> e ∈ rec_entries r ->
       let d := utf8_decode_replace (rec_path r) in
       let n := utf8_decode_replace e.2 in
       (d = py "/" -> py "/" ++ n ∈ paths) /\
       (d ≠ py "/" -> d ++ py "/" ++ n ∈ paths)) /\
    (forall p, p ∈ paths ->
       exists r, r ∈ rs /\
         let d := utf8_decode_replace (rec_path r) in
         p = d \/
         exists e, e ∈ rec_entries r /\
           let n := utf8_decode_replace e.2 in
           (d = py "/" /\ p = py "/" ++ n) \/
           (d ≠ py "/" /\ p = d ++ py "/" ++ n)).
Proof.
  intros Hok Heq Hrs.
  exists (first_occurrences (records_paths rs)),
         (utf8_decode_replace (slice data 16 null_idx)).
  split_and!.
  - apply (parse_mlocate_db_records _ _ _ _ rs [] Hok);
      [by rewrite app_nil_r|cbn; lia|exact Hrs].
  - intros r e Hr He d n.
    assert (child_path d n ∈ first_occurrences (records_paths rs)) as Hin.
    { apply elem_of_first_occurrences, elem_of_records_paths.
      exists r. split; [exact Hr|]. unfold record_paths. right.
      apply (list_elem_of_fmap_2
        (fun e => child_path (utf8_decode_replace (rec_path r))
                    (utf8_decode_replace e.2)) _ e He). }
    unfold child_path in Hin. case_decide; split; intros; done.
  - intros p Hp.
    apply elem_of_first_occurrences, elem_of_records_paths in Hp
      as (r & Hr & Hp).
    exists r. split; [exact Hr|]. unfold record_paths in Hp.
    apply elem_of_cons in Hp as [->|Hp]; [by left|]. right.
    apply list_elem_of_fmap in Hp as (e & -> & He).
    exists e. split; [exact He|]. unfold child_path. case_decide; auto.
Qed.

Lemma root_normalization_witness :
  exists paths root_path,
    parse_mlocate_db (header_slash ++ encode_records root_records)
    = Return (paths, root_path, x00) /\
    (forall r e, r ∈ root_records -> e ∈ rec_entries r ->
       let d := utf8_decode_replace (rec_path r) in
       let n := utf8_decode_replace e.2 in
       (d = py "/" -> py "/" ++ n ∈ paths) /\
       (d ≠ py "/" -> d ++ py "/" ++ n ∈ paths)) /\
    (forall p, p ∈ paths ->
       exists r, r ∈ root_records /\
         let d := utf8_decode_replace (rec_path r) in
         p = d \/
         exists e, e ∈ rec_entries r /\
           let n := utf8_decode_replace e.2 in
           (d = py "/" /\ p = py "/" ++ n) \/
           (d ≠ py "/" /\ p = d ++ py "/" ++ n)).
Proof.
  apply (root_normalization _ 6 x00 17 root_records).
  - repeat split.
  - reflexivity.
  - apply (bool_decide_unpack _). vm_compute. reflexivity.
Defined.

(** The child ["etc"] of ["/"] is ["/etc"], not ["//etc"]. *)
Example etc_under_root :
  parse_mlocate_db (header_slash ++ encode_records root_records)
  = Return ([py "/"; py "/etc"; py "/etc/passwd"], py "/", x00) /\
  py "//etc" ∉ [py "/"; py "/etc"; py "/etc/passwd"].
Proof.
  split; [vm_compute; reflexivity|].
  apply (bool_decide_unpack _). vm_compute. reflexivity.
Qed.

(** ** Strings without a terminator *)

(** C5. When a null-terminated string (the root path, a directory path
    or an entry name) has no terminator before the end of the buffer,
    the decoder raises the [ValueError] of [bytes.index], which carries
    no byte offset, and returns no path list. *)
Theorem unterminated_string_rejected (data : bytes) (config_size : nat) :
  firstn 8 data = MLOCATE_MAGIC ->
  struct_unpack_I (slice data 8 12) = Return config_size ->
  14 <= length data ->
  unterminated data config_size ->
  parse_mlocate_db data = Raise (ValueError "subsection not found").
Proof.
  intros Hmagic Hsize Hlen Hun.
  destruct (getitem_lt data 12 ltac:(lia)) as [version Hver].
  destruct Hun as [Hroot
    | null_idx rs hdr partial Hroot Heq Hrs Hhdr Hnot
    | null_idx rs hdr path es ty partial Hroot Heq Hrs Hhdr Hpath Hes Hty Hnot].
  - unfold parse_mlocate_db. cbn [Nat.add].
    change (slice data 0 8) with (firstn 8 data). rewrite Hmagic.
    rewrite bool_decide_eq_true_2 by reflexivity. cbn [negb].
    rewrite Hsize, Hver. unfold_bind.
    destruct (getitem_lt data 13 ltac:(lia)) as [vis ->].
    by rewrite (cursor_index_absent data 16 x00 Hroot).
  - rewrite (parse_mlocate_db_header data config_size version null_idx)
      by done.
    rewrite (directory_stream_records data (S (length data)) ltac:(lia)
               rs _ _ Heq Hrs).
    apply cursor_advance in Heq.
    by rewrite (directory_stream_truncated_path data (S (length data))
                  ltac:(lia) _ hdr partial Heq Hhdr Hnot).
  - rewrite (parse_mlocate_db_header data config_size version null_idx)
      by done.
    rewrite (directory_stream_records data (S (length data)) ltac:(lia)
               rs _ _ Heq Hrs).
    apply cursor_advance in Heq.
    by rewrite (directory_stream_truncated_name data (S (length data))
                  ltac:(lia) _ hdr path es ty partial Heq Hhdr Hpath Hes Hty Hnot).
Qed.

Lemma unterminated_string_rejected_witness :
  parse_mlocate_db truncated_third = Raise (ValueError "subsection not found").
Proof.
  apply (unterminated_string_rejected truncated_third 6).
  - reflexivity.
  - reflexivity.
  - vm_compute. lia.
  - apply (unterminated_dir_path _ _ 17 root_records hdr16 (pyb "/ho")).
    + reflexivity.
    + reflexivity.
    + apply (bool_decide_unpack _). vm_compute. reflexivity.
    + reflexivity.
    + apply (bool_decide_unpack _). vm_compute. reflexivity.
Defined.

(** The two buffers are cut at different offsets and the decoder fails
    with the same exception on both: nothing computed from the exception
    is the offset. *)
Lemma unterminated_string_counterexample :
  skipn 38 truncated_first = pyb "/ho" /\
  skipn 92 truncated_third = pyb "/ho" /\
  parse_mlocate_db truncated_first = Raise CorruptRecord /\
  parse_mlocate_db truncated_third = Raise CorruptRecord /\
  ~ exists offset_of : exception -> nat,
      (forall e, parse_mlocate_db truncated_first = Raise e -> offset_of e = 38) /\
      (forall e, parse_mlocate_db truncated_third = Raise e -> offset_of e = 92).
Proof.
  assert (parse_mlocate_db truncated_first = Raise CorruptRecord) as H1
    by (vm_compute; reflexivity).
  assert (parse_mlocate_db truncated_third = Raise CorruptRecord) as H3
    by (vm_compute; reflexivity).
  split_and!; [reflexivity|reflexivity|exact H1|exact H3|].
  intros (offset_of & Hfirst & Hthird).
  specialize (Hfirst _ H1). specialize (Hthird _ H3). lia.
Qed.

(** ** The layout of the file format *)

(** C4. On [format_layout_db] the first record begins at offset
    [16 + 1 + 1 + 4 = 22], after the root path and the configuration
    block, and the records read from there give ["/"] and ["/etc"]; the
    decoder reads from offset [16 + 4 = 20] and returns [""], ["//"] and
    ["/etc"]. *)
Theorem format_layout_divergence :
  skipn (16 + (length (pyb "/") + 1) + 4) format_layout_db
  = encode_records format_layout_records /\
  directory_stream (S (length format_layout_db)) format_layout_db
    (16 + (length (pyb "/") + 1) + 4)
  = Return (length format_layout_db, [py "/"; py "/etc"]) /\
  parse_mlocate_db format_layout_db
  = Return ([py ""; py "//"; py "/etc"], py "/", x00).
Proof. split_and!; vm_compute; reflexivity. Qed.

(** ** The matcher *)

(** A scan returns the results it starts with, followed by a prefix of
    the matching paths. *)
Lemma scan_prefix test limit paths : forall results,
  exists k, scan test limit paths results
            = results ++ firstn k (List.filter test paths).
Proof.
  induction paths as [|p paths IH]; intros results.
  - exists 0. cbn. by rewrite app_nil_r.
  - cbn [scan List.filter]. destruct (test p).
    + destruct (cap_reached limit (results ++ [p])).
      * exists 1. reflexivity.
      * destruct (IH (results ++ [p])) as [k ->]. exists (S k).
        by rewrite <- app_assoc.
    + apply IH.
Qed.

(** Without a cap, every matching path is returned. *)
Lemma scan_no_cap test limit paths : forall results,
  (forall rs, cap_reached limit rs = false) ->
  scan test limit paths results = results ++ List.filter test paths.
Proof.
  intros results Hcap. revert results.
  induction paths as [|p paths IH]; intros results.
  - cbn. by rewrite app_nil_r.
  - cbn [scan List.filter]. destruct (test p); [|apply IH].
    rewrite Hcap, IH. by rewrite <- app_assoc.
Qed.

(** With a positive cap not yet reached, the scan adds matching paths
    until the results are [limit] many. *)
Lemma scan_cap test (limit : Z) paths : forall results,
  (0 < limit)%Z -> length results < Z.to_nat limit ->
  scan test (Some limit) paths results
  = results
    ++ firstn (Z.to_nat limit - length results) (List.filter test paths).
Proof.
  intros results Hpos. revert results.
  induction paths as [|p paths IH]; intros results Hlen.
  - cbn. by rewrite take_nil, app_nil_r.
  - cbn [scan List.filter]. destruct (test p); [|by apply IH].
    unfold cap_reached. rewrite length_app. cbn [length].
    assert ((limit =? 0)%Z = false) as -> by lia. cbn [negb andb].
    destruct (Z.geb_spec (Z.of_nat (length results + 1)) limit) as [Hge|Hlt].
    + replace (Z.to_nat limit - length results) with 1 by lia. reflexivity.
    + rewrite IH by (rewrite length_app; cbn [length]; lia).
      rewrite length_app. cbn [length].
      replace (Z.to_nat limit - length results)
        with (S (Z.to_nat limit - (length results + 1))) by lia.
      by rewrite <- app_assoc.
Qed.

Lemma firstn_filter_app test (before after : list pystr) n :
  n <= length (List.filter test before) ->
  firstn n (List.filter test (before ++ after))
  = firstn n (List.filter test before).
Proof.
  intros Hn. rewrite List.filter_app. by rewrite take_app_le.
Qed.

Section MatcherProperties.
Context `{StrLib}.

(** [search_paths] is a scan with the test of the call, or the failure
    of the pattern. *)
Lemma search_paths_scan paths pattern ignore_case use_glob use_regex limit :
  search_paths paths pattern ignore_case use_glob use_regex limit
  = match path_test pattern ignore_case use_glob use_regex with
    | Some test => Return (scan test limit paths [])
    | None => Raise (pattern_failure pattern ignore_case)
    end.
Proof.
  unfold search_paths, path_test, pattern_failure.
  destruct use_regex; [|by destruct use_glob].
  by destruct (re_compile pattern ignore_case).
Qed.

(** C7. With a positive [limit], [search_paths] returns the first
    [limit] matching paths in the order of [paths], hence at most
    [limit] results, and nothing after the path that reaches the cap
    has any effect; with the limit 1, the plain-text search for ["home"]
    over the three sample paths returns ["/home/alice/report.txt"]
    only. *)
Theorem limit_caps_results (paths : list pystr) (pattern : pystr)
    (ignore_case use_glob use_regex : bool) (limit : Z)
    (test : pystr -> bool) :
  path_test pattern ignore_case use_glob use_regex = Some test ->
  (0 < limit)%Z ->
  search_paths paths pattern ignore_case use_glob use_regex (Some limit)
  = Return (firstn (Z.to_nat limit) (List.filter test paths)) /\
  (forall results,
     search_paths paths pattern ignore_case use_glob use_regex (Some limit)
     = Return results -> (Z.of_nat (length results) <= limit)%Z) /\
  (forall before after,
     paths = before ++ after ->
     Z.to_nat limit <= length (List.filter test before) ->
     search_paths paths pattern ignore_case use_glob use_regex (Some limit)
     = search_paths before pattern ignore_case use_glob use_regex
         (Some limit)) /\
  search_paths
    [py "/home/alice/report.txt"; py "/home/bob/notes.md"; py "/etc/passwd"]
    (py "home") false false false (Some 1%Z)
  = Return [py "/home/alice/report.txt"].
Proof.
  intros Htest Hpos.
  assert (forall l, search_paths l pattern ignore_case use_glob use_regex
                      (Some limit)
                    = Return (firstn (Z.to_nat limit) (List.filter test l)))
    as Hsearch.
  { intros l. rewrite search_paths_scan, Htest.
    rewrite scan_cap by (cbn [length]; lia).
    cbn [length app]. by rewrite Nat.sub_0_r. }
  split_and!.
  - apply Hsearch.
  - intros results. rewrite Hsearch. intros [= <-].
    rewrite length_take. lia.
  - intros before after -> Hle. rewrite !Hsearch.
    by rewrite firstn_filter_app.
  - reflexivity.
Qed.

(** C10. With the limit 0, [search_paths] does what it does without a
    limit: it returns every matching path (or fails on the pattern as
    it does without a limit). *)
Theorem zero_limit_is_no_limit (paths : list pystr) (pattern : pystr)
    (ignore_case use_glob use_regex : bool) :
  search_paths paths pattern ignore_case use_glob use_regex (Some 0%Z)
  = search_paths paths pattern ignore_case use_glob use_regex None /\
  search_paths paths pattern ignore_case use_glob use_regex (Some 0%Z)
  = match path_test pattern ignore_case use_glob use_regex with
    | Some test => Return (List.filter test paths)
    | None => Raise (pattern_failure pattern ignore_case)
    end.
Proof.
  rewrite !search_paths_scan.
  destruct (path_test pattern ignore_case use_glob use_regex) as [test|];
    [|done].
  by rewrite !scan_no_cap.
Qed.

(** In regex mode a pattern that [re.compile] rejects with [re.error]
    makes [search_paths] fail with [InvalidPattern], whatever the paths
    are. *)
Lemma re_error_exits (paths : list pystr) (pattern : pystr)
    (ignore_case use_glob : bool) (limit : option Z) :
  re_compile pattern ignore_case = ReError ->
  search_paths paths pattern ignore_case use_glob true limit
  = Raise InvalidPattern.
Proof. intros Hc. unfold search_paths. by rewrite Hc. Qed.

(** C8. In regex mode a pattern on which [re.compile] raises an
    exception other than [re.error] is not handled: [search_paths] ends
    with that exception, which is not [InvalidPattern], whatever the
    paths are (none of them is looked at). *)
Theorem compile_exception_uncaught (paths : list pystr) (pattern : pystr)
    (ignore_case use_glob : bool) (limit : option Z)
    (e : compile_exception) :
  re_compile pattern ignore_case = CompileRaises e ->
  search_paths paths pattern ignore_case use_glob true limit
  = Raise (raised e) /\
  raised e ≠ InvalidPattern /\
  forall paths',
    search_paths paths' pattern ignore_case use_glob true limit
    = search_paths paths pattern ignore_case use_glob true limit.
Proof.
  intros Hc. unfold search_paths. rewrite Hc. split_and!.
  - reflexivity.
  - by destruct e.
  - reflexivity.
Qed.
End MatcherProperties.

Lemma compile_exception_uncaught_witness :
  search_paths (H := ascii_lib) sample_paths (py "a{4294967296}")
    false false true None
  = Raise (OverflowError "the repetition number is too large") /\
  OverflowError "the repetition number is too large" ≠ InvalidPattern /\
  forall paths',
    search_paths (H := ascii_lib) paths' (py "a{4294967296}")
      false false true None
    = search_paths (H := ascii_lib) sample_paths (py "a{4294967296}")
        false false true None.
Proof.
  refine (compile_exception_uncaught (H := ascii_lib) sample_paths
            (py "a{4294967296}") false false None
            (CompileOverflowError "the repetition number is too large") _).
  vm_compute. reflexivity.
Defined.

Lemma limit_caps_results_witness :
  search_paths (H := ascii_lib) sample_paths (py "o") true false false
    (Some 2%Z)
  = Return [py "/home/alice/report.txt"; py "/home/bob/notes.md"].
Proof.
  refine (proj1 (limit_caps_results (H := ascii_lib) sample_paths (py "o")
                   true false false 2
                   (text_test (H := ascii_lib) (py "o") true) _ _)).
  - reflexivity.
  - lia.
Defined.

(** With the limit 0 the two matching paths are returned, and with the
    limit -1 the first of them: more than [limit] in both cases. *)
Lemma limit_caps_results_counterexample :
  (search_paths (H := ascii_lib) sample_paths (py "home") false false false
     (Some 0%Z)
   = Return [py "/home/alice/report.txt"; py "/home/bob/notes.md"] /\
   ~ (Z.of_nat (length [py "/home/alice/report.txt"; py "/home/bob/notes.md"])
      <= 0)%Z) /\
  (search_paths (H := ascii_lib) sample_paths (py "home") false false false
     (Some (-1)%Z)
   = Return [py "/home/alice/report.txt"] /\
   ~ (Z.of_nat (length [py "/home/alice/report.txt"]) <= -1)%Z).
Proof. repeat split; cbn; lia. Qed.


(** * Further properties of the decoder *)

Lemma struct_unpack_I_short buf :
  length buf ≠ 4 ->
  struct_unpack_I buf = Raise (StructError "unpack requires a buffer of 4 bytes").
Proof.
  intros Hlen. unfold struct_unpack_I.
  destruct buf as [|? [|? [|? [|? [|? ?]]]]]; try reflexivity.
  cbn in Hlen. lia.
Qed.

Lemma struct_unpack_I_full buf :
  length buf = 4 -> exists n, struct_unpack_I buf = Return n.
Proof.
  intros Hlen. unfold struct_unpack_I.
  destruct buf as [|? [|? [|? [|? [|? ?]]]]]; try discriminate. eauto.
Qed.

Lemma getitem_ge data pos :
  length data <= pos -> getitem data pos = Raise (IndexError "index out of range").
Proof.
  intros Hle. unfold getitem.
  by apply nth_error_None in Hle as ->.
Qed.

Lemma magic_rejection_eq data :
  firstn 8 data ≠ MLOCATE_MAGIC -> parse_mlocate_db data = Raise InvalidFormat.
Proof.
  intros Hmagic. unfold parse_mlocate_db. cbn [Nat.add].
  change (slice data 0 8) with (firstn 8 data).
  by rewrite bool_decide_eq_false_2.
Qed.

Lemma short_header_eq data :
  firstn 8 data = MLOCATE_MAGIC -> length data < 14 ->
  parse_mlocate_db data
  = Raise (if length data <? 12
           then StructError "unpack requires a buffer of 4 bytes"
           else IndexError "index out of range").
Proof.
  intros Hmagic Hlen. unfold parse_mlocate_db. cbn [Nat.add].
  change (slice data 0 8) with (firstn 8 data). rewrite Hmagic.
  rewrite bool_decide_eq_true_2 by reflexivity. cbn [negb].
  assert (length (slice data 8 12) = Nat.min 4 (length data - 8)) as Hslice.
  { unfold slice. by rewrite length_take, length_skipn. }
  destruct (Nat.ltb_spec (length data) 12) as [Hshort|Hlong].
  - rewrite struct_unpack_I_short by lia. reflexivity.
  - destruct (struct_unpack_I_full (slice data 8 12) ltac:(lia)) as [n ->].
    unfold_bind. destruct (Nat.eq_dec (length data) 12) as [H12|H12].
    + by rewrite getitem_ge by lia.
    + destruct (getitem_lt data 12 ltac:(lia)) as [v ->].
      by rewrite getitem_ge by lia.
Qed.

(** X1. A buffer that has the magic bytes but ends inside the 16-byte
    prefix is not decoded: with fewer than 12 bytes [struct.unpack]
    raises [struct.error], with 12 or 13 bytes reading the version or
    the flag raises [IndexError]. *)
Theorem short_header_rejected (data : bytes) :
  firstn 8 data = MLOCATE_MAGIC ->
  length data < 14 ->
  parse_mlocate_db data
  = Raise (if length data <? 12
           then StructError "unpack requires a buffer of 4 bytes"
           else IndexError "index out of range").
Proof. apply short_header_eq. Qed.

Lemma short_header_rejected_witness :
  parse_mlocate_db (MLOCATE_MAGIC ++ [x00; x00; x00; x06; x00])
  = Raise (IndexError "index out of range").
Proof.
  apply (short_header_rejected (MLOCATE_MAGIC ++ [x00; x00; x00; x06; x00])).
  - reflexivity.
  - cbn. lia.
Defined.

(** X2. With an accepted header and fewer than 16 bytes from offset
    [16 + config_size] on (among others when [config_size] points past
    the end of the buffer), the decoder returns the empty path list with
    the root path and version of the header, and no error. *)
Theorem empty_record_stream (data : bytes) (config_size : nat)
    (version : byte) (null_idx : nat) :
  header_ok data config_size version null_idx ->
  length data < 16 + config_size + 16 ->
  parse_mlocate_db data
  = Return ([], utf8_decode_replace (slice data 16 null_idx), version).
Proof.
  intros Hok Hlen. rewrite (parse_mlocate_db_header _ _ _ _ Hok).
  rewrite (directory_stream_eof data (S (length data)) ltac:(lia));
    [reflexivity|].
  rewrite length_skipn. lia.
Qed.

Lemma empty_record_stream_witness :
  parse_mlocate_db
    (MLOCATE_MAGIC ++ [x00; x00; x03; xe8] ++ [x00; x00; x00; x00]
     ++ pyb "/srv" ++ [x00] ++ pyb "trailing")
  = Return ([], py "/srv", x00).
Proof.
  refine (empty_record_stream
            (MLOCATE_MAGIC ++ [x00; x00; x03; xe8] ++ [x00; x00; x00; x00]
             ++ pyb "/srv" ++ [x00] ++ pyb "trailing") 1000 x00 20 _ _).
  - repeat split.
  - apply Nat.ltb_lt. vm_compute. reflexivity.
Defined.

(** X3. The version the decoder returns is the byte at offset 12, and
    the root path is the decoded run of bytes from offset 16 to the
    first zero byte at or after it, wherever the record stream starts. *)
Theorem header_fields_returned (data : bytes) (paths : list pystr)
    (root_path : pystr) (version : byte) :
  parse_mlocate_db data = Return (paths, root_path, version) ->
  nth_error data 12 = Some version /\
  exists null_idx,
    bytes_index data x00 16 = Return null_idx /\
    (x00 ∉ slice data 16 null_idx) /\
    root_path = utf8_decode_replace (slice data 16 null_idx).
Proof.
  intros Hparse.
  destruct (parse_mlocate_db_Return _ _ _ _ Hparse) as (K & n & Hok).
  rewrite (parse_mlocate_db_header _ _ _ _ Hok) in Hparse.
  destruct Hok as (_ & _ & Hver & Hroot). split.
  - unfold getitem in Hver. destruct (nth_error data 12); congruence.
  - exists n. split_and!; [exact Hroot| |].
    + unfold bytes_index in Hroot.
      destruct (find_byte x00 (skipn 16 data)) as [i|] eqn:E; [|discriminate].
      assert (n = 16 + i) as -> by congruence.
      apply find_byte_Some in E as (_ & _ & Hnot).
      unfold slice. replace (16 + i - 16) with i by lia. exact Hnot.
    + unfold_bind.
      destruct (directory_stream _ data _) as [[pos stream]| |];
        [|discriminate..].
      by injection Hparse as _ <-.
Qed.

Lemma header_fields_returned_witness :
  nth_error (header_home ++ sample_records) 12 = Some x00 /\
  exists null_idx,
    bytes_index (header_home ++ sample_records) x00 16 = Return null_idx /\
    (x00 ∉ slice (header_home ++ sample_records) 16 null_idx) /\
    py "/home"
    = utf8_decode_replace (slice (header_home ++ sample_records) 16 null_idx).
Proof.
  apply (header_fields_returned (header_home ++ sample_records)
           [py "/"; py "/etc"; py "/vmlinuz"; py "/etc/passwd"]).
  vm_compute. reflexivity.
Defined.

Lemma find_byte_app_l b l k i :
  find_byte b l = Some i -> find_byte b (l ++ k) = Some i.
Proof.
  revert i. induction l as [|x l IH]; intros i; cbn [find_byte app];
    [discriminate|].
  destruct (Byte.eqb x b); [done|].
  destruct (find_byte b l) as [j|]; [|discriminate].
  intros [= <-]. by rewrite (IH j).
Qed.

Lemma header_ok_app data tail config_size version null_idx :
  header_ok data config_size version null_idx ->
  header_ok (data ++ tail) config_size version null_idx /\
  slice (data ++ tail) 16 null_idx = slice data 16 null_idx.
Proof.
  intros (Hmagic & Hsize & Hver & Hroot).
  assert (16 <= null_idx /\ null_idx < length data) as [Hge Hlt].
  { by apply bytes_index_Return in Hroot as (? & ? & _). }
  unfold header_ok. split_and!.
  - rewrite take_app_le; [done|]. lia.
  - unfold slice in *. rewrite drop_app_le by lia.
    rewrite take_app_le; [done|]. rewrite length_skipn. lia.
  - unfold getitem in *. rewrite nth_error_app1 by lia. done.
  - unfold bytes_index in *. rewrite drop_app_le by lia.
    destruct (find_byte x00 (skipn 16 data)) as [i|] eqn:E; [|discriminate].
    by rewrite (find_byte_app_l _ _ tail _ E).
  - unfold slice. rewrite drop_app_le by lia.
    rewrite take_app_le; [done|]. rewrite length_skipn. lia.
Qed.

(** X4. Up to 15 bytes after the last record are taken for the end of
    the file: they are not read and do not change the result. *)
Theorem trailing_bytes_ignored (data : bytes) (config_size : nat)
    (version : byte) (null_idx : nat) (rs : list dir_record) (tail : bytes) :
  header_ok data config_size version null_idx ->
  skipn (16 + config_size) data = encode_records rs ->
  Forall record_ok rs ->
  length tail < 16 ->
  parse_mlocate_db (data ++ tail) = parse_mlocate_db data.
Proof.
  intros Hok Heq Hrs Htail.
  destruct (header_ok_app data tail _ _ _ Hok) as [Hok' Hslice].
  rewrite (parse_mlocate_db_records _ _ _ _ rs [] Hok);
    [|by rewrite app_nil_r|cbn; lia|exact Hrs].
  rewrite (parse_mlocate_db_records _ _ _ _ rs
             (skipn (16 + config_size - length data) tail) Hok');
    [|by rewrite drop_app, Heq|rewrite length_skipn; lia|exact Hrs].
  by rewrite Hslice.
Qed.

Lemma trailing_bytes_ignored_witness :
  parse_mlocate_db
    ((header_slash ++ encode_records usr_var_records) ++ pyb "0123456789abcde")
  = parse_mlocate_db (header_slash ++ encode_records usr_var_records).
Proof.
  apply (trailing_bytes_ignored _ 6 x00 17 usr_var_records).
  - repeat split.
  - reflexivity.
  - apply (bool_decide_unpack _). vm_compute. reflexivity.
  - apply Nat.ltb_lt. vm_compute. reflexivity.
Defined.

Lemma directory_stream_open_record data fuel pos r :
  length data < fuel ->
  skipn pos data = encode_open_record r -> record_ok r ->
  directory_stream fuel data pos
  = Return (pos + length (encode_open_record r), record_paths r).
Proof.
  destruct r as [hdr path es]. unfold encode_open_record, record_ok, record_paths.
  cbn [rec_header rec_path rec_entries].
  intros Hfuel Heq (Hhdr & Hpath & Hes).
  cbn [app] in Heq.
  assert (pos + 16 <= length data) as Hlen.
  { apply (f_equal length) in Heq.
    rewrite length_skipn, length_app in Heq. lia. }
  assert (skipn (pos + 16) data = path ++ x00 :: encode_entries es ++ [])
    as Heq1.
  { rewrite <- Hhdr, app_nil_r. by apply cursor_advance. }
  assert (pos < length data) as Hlt.
  { apply (f_equal length) in Heq1.
    rewrite length_skipn, length_app in Heq1. cbn [length] in Heq1. lia. }
  rewrite directory_stream_unfold by done.
  destruct (Nat.ltb_spec pos (length data)); [|lia].
  destruct (Nat.ltb_spec (length data) (pos + 16)); [lia|].
  rewrite (cursor_index _ _ _ _ _ Heq1 Hpath). unfold_bind.
  rewrite (cursor_slice _ _ _ _ Heq1).
  assert (skipn (pos + 16 + length path + 1) data = encode_entries es ++ [])
    as Heq2.
  { rewrite <- Nat.add_assoc.
    change (length path + 1) with (length path + length [x00]).
    rewrite <- length_app. apply cursor_advance.
    by rewrite <- app_assoc. }
  rewrite (entry_stream_entries data fuel Hfuel _ es _ _ Heq2 Hes).
  apply cursor_advance in Heq2.
  rewrite (entry_stream_eof data fuel Hfuel _ _ Heq2). unfold_bind.
  rewrite (directory_stream_eof data fuel Hfuel) by (rewrite Heq2; cbn; lia).
  rewrite !app_nil_r, !length_app, Hhdr. cbn [length].
  do 2 f_equal. lia.
Qed.

(** X5. The [END_ENTRY] byte of the last record is optional: when the
    buffer ends after the entries of a record, the decoder returns the
    paths of all records, this one included, exactly as it does with the
    byte added. *)
Theorem missing_end_tolerated (data : bytes) (config_size : nat)
    (version : byte) (null_idx : nat) (rs : list dir_record)
    (r : dir_record) :
  header_ok data config_size version null_idx ->
  skipn (16 + config_size) data = encode_records rs ++ encode_open_record r ->
  Forall record_ok rs -> record_ok r ->
  parse_mlocate_db data
  = Return (first_occurrences (records_paths (rs ++ [r])),
            utf8_decode_replace (slice data 16 null_idx), version) /\
  parse_mlocate_db (data ++ [END_ENTRY]) = parse_mlocate_db data.
Proof.
  intros Hok Heq Hrs Hr.
  assert (parse_mlocate_db data
          = Return (first_occurrences (records_paths (rs ++ [r])),
                    utf8_decode_replace (slice data 16 null_idx), version))
    as Hparse.
  { rewrite (parse_mlocate_db_header _ _ _ _ Hok).
    rewrite (directory_stream_records data (S (length data)) ltac:(lia)
               rs _ _ Heq Hrs).
    apply cursor_advance in Heq.
    rewrite (directory_stream_open_record data (S (length data)) _ r
               ltac:(lia) Heq Hr).
    unfold_bind. unfold records_paths.
    by rewrite flat_map_app; cbn [flat_map]; rewrite app_nil_r. }
  split; [exact Hparse|]. rewrite Hparse.
  destruct (header_ok_app data [END_ENTRY] _ _ _ Hok) as [Hok' Hslice].
  rewrite (parse_mlocate_db_records _ _ _ _ (rs ++ [r]) [] Hok');
    [by rewrite Hslice| |cbn; lia|].
  - assert (16 + config_size <= length data) as Hlen.
    { apply (f_equal length) in Heq.
      rewrite length_skipn, length_app in Heq.
      destruct Hr as (Hh & _). unfold encode_open_record in Heq.
      rewrite length_app, Hh in Heq. lia. }
    rewrite drop_app_le, Heq by lia.
    unfold encode_records. rewrite flat_map_app. cbn [flat_map].
    unfold encode_record, encode_open_record.
    by rewrite !app_nil_r, <- !app_assoc.
  - apply Forall_app. split; [exact Hrs|]. by apply Forall_singleton.
Qed.

Lemma missing_end_tolerated_witness :
  parse_mlocate_db
    (header_slash ++ encode_records usr_var_records
     ++ encode_open_record open_record_example)
  = Return (first_occurrences
              (records_paths (usr_var_records ++ [open_record_example])),
            utf8_decode_replace
              (slice (header_slash ++ encode_records usr_var_records
                      ++ encode_open_record open_record_example) 16 17),
            x00) /\
  parse_mlocate_db
    ((header_slash ++ encode_records usr_var_records
      ++ encode_open_record open_record_example) ++ [END_ENTRY])
  = parse_mlocate_db
      (header_slash ++ encode_records usr_var_records
       ++ encode_open_record open_record_example).
Proof.
  apply (missing_end_tolerated _ 6 x00 17 usr_var_records open_record_example).
  - repeat split.
  - reflexivity.
  - apply (bool_decide_unpack _). vm_compute. reflexivity.
  - apply (bool_decide_unpack _). vm_compute. reflexivity.
Defined.

Lemma record_paths_names r1 r2 :
  record_names r1 = record_names r2 -> record_paths r1 = record_paths r2.
Proof.
  unfold record_names, record_paths. intros [= Hpath Hnames].
  rewrite Hpath. f_equal.
  set (g := fun n : bytes =>
              child_path (utf8_decode_replace (rec_path r2))
                (utf8_decode_replace n)).
  transitivity (map g (map snd (rec_entries r1)));
    [symmetry; apply map_map|].
  rewrite Hnames. apply map_map.
Qed.

Lemma records_paths_names rs1 : forall rs2,
  map record_names rs1 = map record_names rs2 ->
  records_paths rs1 = records_paths rs2.
Proof.
  induction rs1 as [|r1 rs1 IH]; intros [|r2 rs2]; try done.
  cbn [map]. intros Heq.
  assert (record_names r1 = record_names r2) as Hr by congruence.
  assert (map record_names rs1 = map record_names rs2) as Hrs by congruence.
  unfold records_paths. cbn [flat_map].
  rewrite (record_paths_names _ _ Hr). f_equal. by apply IH.
Qed.

(** X6. The 16 header bytes of a record and the type bytes of its
    entries have no effect on the result: two buffers whose records
    have the same paths and entry names decode to the same path list,
    a file entry like a directory entry. *)
Theorem headers_and_types_ignored (d1 d2 : bytes) (k1 k2 : nat)
    (v1 v2 : byte) (n1 n2 : nat) (rs1 rs2 : list dir_record) :
  header_ok d1 k1 v1 n1 -> header_ok d2 k2 v2 n2 ->
  skipn (16 + k1) d1 = encode_records rs1 ->
  skipn (16 + k2) d2 = encode_records rs2 ->
  Forall record_ok rs1 -> Forall record_ok rs2 ->
  map record_names rs1 = map record_names rs2 ->
  paths_of (parse_mlocate_db d1) = paths_of (parse_mlocate_db d2).
Proof.
  intros Hok1 Hok2 Heq1 Heq2 Hrs1 Hrs2 Hnames.
  rewrite (parse_mlocate_db_records _ _ _ _ rs1 [] Hok1);
    [|by rewrite app_nil_r|cbn; lia|exact Hrs1].
  rewrite (parse_mlocate_db_records _ _ _ _ rs2 [] Hok2);
    [|by rewrite app_nil_r|cbn; lia|exact Hrs2].
  cbn. by rewrite (records_paths_names _ _ Hnames).
Qed.

Lemma headers_and_types_ignored_witness :
  paths_of (parse_mlocate_db (header_slash ++ encode_records usr_var_records))
  = paths_of (parse_mlocate_db (header_home ++ encode_records usr_var_records')).
Proof.
  apply (headers_and_types_ignored _ _ 6 6 x00 x00 17 21
           usr_var_records usr_var_records').
  - repeat split.
  - repeat split.
  - reflexivity.
  - reflexivity.
  - apply (bool_decide_unpack _). vm_compute. reflexivity.
  - apply (bool_decide_unpack _). vm_compute. reflexivity.
  - reflexivity.
Defined.

Lemma records_paths_app rs1 rs2 :
  records_paths (rs1 ++ rs2) = records_paths rs1 ++ records_paths rs2.
Proof. unfold records_paths. apply flat_map_app. Qed.

Lemma filter_none (P : pystr -> Prop) `{!forall x, Decision (P x)}
    (l : list pystr) :
  (forall x, x ∈ l -> ~ P x) -> filter P l = [].
Proof.
  induction l as [|x l IH]; intros Hall; [reflexivity|].
  rewrite filter_cons_False by (apply Hall; left).
  apply IH. intros y Hy. apply Hall. by right.
Qed.

(** X7. Decoding a record stream followed by another gives the paths of
    the first, then the paths of the second that the first does not
    have, in their order. *)
Theorem concatenated_streams (d d1 d2 : bytes) (k k1 k2 : nat)
    (v v1 v2 : byte) (n n1 n2 : nat) (rs1 rs2 : list dir_record) :
  header_ok d k v n -> header_ok d1 k1 v1 n1 -> header_ok d2 k2 v2 n2 ->
  skipn (16 + k) d = encode_records (rs1 ++ rs2) ->
  skipn (16 + k1) d1 = encode_records rs1 ->
  skipn (16 + k2) d2 = encode_records rs2 ->
  Forall record_ok rs1 -> Forall record_ok rs2 ->
  exists p1 p2,
    paths_of (parse_mlocate_db d1) = Return p1 /\
    paths_of (parse_mlocate_db d2) = Return p2 /\
    paths_of (parse_mlocate_db d)
    = Return (p1 ++ filter (fun y => y ∉ p1) p2).
Proof.
  intros Hok Hok1 Hok2 Heq Heq1 Heq2 Hrs1 Hrs2.
  exists (first_occurrences (records_paths rs1)),
         (first_occurrences (records_paths rs2)).
  rewrite (parse_mlocate_db_records _ _ _ _ rs1 [] Hok1);
    [|by rewrite app_nil_r|cbn; lia|exact Hrs1].
  rewrite (parse_mlocate_db_records _ _ _ _ rs2 [] Hok2);
    [|by rewrite app_nil_r|cbn; lia|exact Hrs2].
  rewrite (parse_mlocate_db_records _ _ _ _ (rs1 ++ rs2) [] Hok);
    [|by rewrite app_nil_r|cbn; lia|by apply Forall_app].
  split_and!; [reflexivity..|]. cbn.
  rewrite records_paths_app, first_occurrences_app. do 2 f_equal.
  apply list_filter_iff. intros y. by rewrite elem_of_first_occurrences.
Qed.

Lemma concatenated_streams_witness :
  exists p1 p2,
    paths_of (parse_mlocate_db (header_slash ++ encode_records root_records))
    = Return p1 /\
    paths_of (parse_mlocate_db (header_home ++ encode_records nested_records))
    = Return p2 /\
    paths_of (parse_mlocate_db
                (header_slash ++ encode_records (root_records ++ nested_records)))
    = Return (p1 ++ filter (fun y => y ∉ p1) p2).
Proof.
  apply (concatenated_streams _ _ _ 6 6 6 x00 x00 x00 17 17 21
           root_records nested_records).
  - repeat split.
  - repeat split.
  - repeat split.
  - reflexivity.
  - reflexivity.
  - reflexivity.
  - apply (bool_decide_unpack _). vm_compute. reflexivity.
  - apply (bool_decide_unpack _). vm_compute. reflexivity.
Defined.

(** X8. A record stream written twice decodes to the path list of the
    stream written once. *)
Theorem repeated_stream (d d1 : bytes) (k k1 : nat) (v v1 : byte)
    (n n1 : nat) (rs : list dir_record) :
  header_ok d k v n -> header_ok d1 k1 v1 n1 ->
  skipn (16 + k) d = encode_records (rs ++ rs) ->
  skipn (16 + k1) d1 = encode_records rs ->
  Forall record_ok rs ->
  paths_of (parse_mlocate_db d) = paths_of (parse_mlocate_db d1).
Proof.
  intros Hok Hok1 Heq Heq1 Hrs.
  rewrite (parse_mlocate_db_records _ _ _ _ rs [] Hok1);
    [|by rewrite app_nil_r|cbn; lia|exact Hrs].
  rewrite (parse_mlocate_db_records _ _ _ _ (rs ++ rs) [] Hok);
    [|by rewrite app_nil_r|cbn; lia|by apply Forall_app].
  cbn. rewrite records_paths_app, first_occurrences_app.
  rewrite filter_none, app_nil_r; [reflexivity|].
  intros x Hx Hnot. by apply Hnot, elem_of_first_occurrences.
Qed.

Lemma repeated_stream_witness :
  paths_of (parse_mlocate_db
              (header_slash
               ++ encode_records (usr_var_records ++ usr_var_records)))
  = paths_of (parse_mlocate_db (header_home ++ encode_records usr_var_records)).
Proof.
  apply (repeated_stream _ _ 6 6 x00 x00 17 21 usr_var_records).
  - repeat split.
  - repeat split.
  - reflexivity.
  - reflexivity.
  - apply (bool_decide_unpack _). vm_compute. reflexivity.
Defined.

Lemma entry_stream_Raise fuel data dir_path : forall pos e,
  entry_stream fuel data dir_path pos = Raise e -> e = CorruptRecord.
Proof.
  induction fuel as [|fuel IH]; intros pos e; [discriminate|].
  cbn [entry_stream].
  destruct (Nat.ltb_spec pos (length data)) as [Hlt|]; [|discriminate].
  destruct (getitem_lt data pos Hlt) as [entry_type ->]. unfold_bind.
  destruct (Byte.eqb entry_type END_ENTRY); [discriminate|].
  destruct (bytes_index data x00 (pos + 1)) as [null_idx|e'|] eqn:E.
  - specialize (IH (null_idx + 1) e).
    destruct (entry_stream fuel data dir_path (null_idx + 1)) as [[??]| |];
      [discriminate| |discriminate].
    intros [= ->]. by apply IH.
  - apply bytes_index_Raise in E as [-> _]. by intros [= <-].
  - discriminate.
Qed.

Lemma directory_stream_Raise fuel data : forall pos e,
  directory_stream fuel data pos = Raise e -> e = CorruptRecord.
Proof.
  induction fuel as [|fuel IH]; intros pos e; [discriminate|].
  cbn [directory_stream].
  destruct (pos <? length data); [|discriminate].
  destruct (length data <? pos + 16); [discriminate|].
  destruct (bytes_index data x00 (pos + 16)) as [null_idx|e'|] eqn:E.
  - unfold_bind.
    destruct (entry_stream fuel data _ (null_idx + 1)) as [[pos1 ?]|e1|] eqn:E1;
      [|intros [= <-]; by apply entry_stream_Raise in E1|discriminate].
    specialize (IH pos1 e).
    destruct (directory_stream fuel data pos1) as [[??]| |];
      [discriminate| |discriminate].
    intros [= ->]. by apply IH.
  - apply bytes_index_Raise in E as [-> _]. by intros [= <-].
  - discriminate.
Qed.

Lemma parse_mlocate_db_Raise (data : bytes) (e : exception) :
  parse_mlocate_db data = Raise e ->
  (firstn 8 data ≠ MLOCATE_MAGIC /\ e = InvalidFormat) \/
  (firstn 8 data = MLOCATE_MAGIC /\
   ((length data < 12 /\
     e = StructError "unpack requires a buffer of 4 bytes") \/
    (12 <= length data < 14 /\ e = IndexError "index out of range") \/
    (14 <= length data /\ e = CorruptRecord))).
Proof.
  intros Hparse.
  destruct (decide (firstn 8 data = MLOCATE_MAGIC)) as [Hmagic|Hmagic].
  2:{ left. split; [exact Hmagic|].
      rewrite (magic_rejection_eq data Hmagic) in Hparse. congruence. }
  right. split; [exact Hmagic|].
  destruct (Nat.lt_ge_cases (length data) 14) as [Hshort|Hlong].
  - rewrite (short_header_eq data Hmagic Hshort) in Hparse.
    destruct (Nat.ltb_spec (length data) 12).
    + left. split; [done|congruence].
    + right. left. split; [lia|congruence].
  - right. right. split; [exact Hlong|].
    revert Hparse. unfold parse_mlocate_db. cbn [Nat.add].
    change (slice data 0 8) with (firstn 8 data). rewrite Hmagic.
    rewrite bool_decide_eq_true_2 by reflexivity. cbn [negb].
    destruct (struct_unpack_I_full (slice data 8 12)) as [K ->].
    { unfold slice. rewrite length_take, length_skipn. lia. }
    destruct (getitem_lt data 12 ltac:(lia)) as [ver ->].
    destruct (getitem_lt data 13 ltac:(lia)) as [vis ->]. unfold_bind.
    destruct (bytes_index data x00 16) as [null_idx|e'|] eqn:E.
    + rewrite read_directories_stream. unfold_bind.
      destruct (directory_stream _ data _) as [[??]|e1|] eqn:E1;
        [discriminate| |discriminate].
      intros [= <-]. by apply directory_stream_Raise in E1.
    + apply bytes_index_Raise in E as [-> _]. by intros [= <-].
    + discriminate.
Qed.



(** * Further properties of the matcher *)

Lemma List_filter_sublist (test : pystr -> bool) (l : list pystr) :
  List.filter test l `sublist_of` l.
Proof.
  induction l as [|x l IH]; [constructor|].
  cbn [List.filter]. destruct (test x); by constructor.
Qed.

Lemma scan_sublist test limit paths :
  scan test limit paths [] `sublist_of` paths /\
  Forall (fun p => test p = true) (scan test limit paths []).
Proof.
  destruct (scan_prefix test limit paths []) as [k ->]. cbn [app]. split.
  - etransitivity; [apply sublist_take|apply List_filter_sublist].
  - apply Forall_forall. intros p Hp. apply subseteq_take in Hp.
    by apply list_elem_of_In, List.filter_In in Hp as [_ Hp].
Qed.

(** With a negative limit the cap test holds at the first match. *)
Lemma scan_negative test (limit : Z) paths : forall results,
  (limit < 0)%Z ->
  scan test (Some limit) paths results
  = results ++ firstn 1 (List.filter test paths).
Proof.
  intros results Hneg. induction paths as [|p paths IH].
  - cbn. by rewrite app_nil_r.
  - cbn [scan List.filter]. destruct (test p); [|exact IH].
    unfold cap_reached.
    assert ((limit =? 0)%Z = false) as -> by lia. cbn [negb andb].
    destruct (Z.geb_spec (Z.of_nat (length (results ++ [p]))) limit);
      [reflexivity|lia].
Qed.

(** [pat in target] holds exactly when [target] is [pat] between two
    strings. *)
Lemma startswith_spec target pat :
  startswith target pat = true <-> exists post, target = pat ++ post.
Proof.
  revert target. induction pat as [|c pat IH]; intros target.
  - split; [intros _; by exists target|intros _; by destruct target].
  - destruct target as [|d target]; cbn [startswith].
    + split; [discriminate|]. by intros [post Hpost].
    + rewrite andb_true_iff, N.eqb_eq, IH. split.
      * intros [-> [post ->]]. by exists post.
      * intros [post [= -> ->]]. eauto.
Qed.

Lemma contains_spec pat target :
  contains pat target = true <->
  exists pre post, target = pre ++ pat ++ post.
Proof.
  induction target as [|d target IH]; cbn [contains].
  - rewrite orb_false_r, startswith_spec. split.
    + intros [post ->]. by exists [], post.
    + intros (pre & post & Heq). symmetry in Heq.
      apply app_eq_nil in Heq as [-> Heq]. by exists post.
  - rewrite orb_true_iff, startswith_spec, IH. split.
    + intros [[post ->]|(pre & post & ->)].
      * by exists [], post.
      * by exists (d :: pre), post.
    + intros ([|x pre] & post & Heq).
      * left. by exists post.
      * right. injection Heq as -> ->. by exists pre, post.
Qed.

Section MoreMatcherProperties.
Context `{StrLib}.

(** X10. Whatever the mode, the case flag and the limit, the results of
    [search_paths] are paths of the input, in the order of the input,
    none of them taken more often than it occurs there, and each of them
    passes the test of the call. *)
Theorem results_are_matching_sublist (paths : list pystr) (pattern : pystr)
    (ignore_case use_glob use_regex : bool) (limit : option Z)
    (results : list pystr) :
  search_paths paths pattern ignore_case use_glob use_regex limit
  = Return results ->
  results `sublist_of` paths /\
  exists test,
    path_test pattern ignore_case use_glob use_regex = Some test /\
    Forall (fun p => test p = true) results.
Proof.
  rewrite search_paths_scan.
  destruct (path_test pattern ignore_case use_glob use_regex) as [test|];
    [|discriminate].
  intros [= <-]. destruct (scan_sublist test limit paths) as [Hsub Hall].
  split; [exact Hsub|]. by exists test.
Qed.

(** X11. With a negative limit, [search_paths] stops at the first match:
    it returns the first matching path alone, or nothing when no path
    matches. *)
Theorem negative_limit_first_match (paths : list pystr) (pattern : pystr)
    (ignore_case use_glob use_regex : bool) (limit : Z)
    (test : pystr -> bool) :
  path_test pattern ignore_case use_glob use_regex = Some test ->
  (limit < 0)%Z ->
  search_paths paths pattern ignore_case use_glob use_regex (Some limit)
  = Return (firstn 1 (List.filter test paths)).
Proof.
  intros Htest Hneg. rewrite search_paths_scan, Htest.
  by rewrite scan_negative.
Qed.

(** X12. A search over the path list of a decoded database returns no
    path twice. *)
Theorem search_after_decode_NoDup (data : bytes) (paths : list pystr)
    (root_path : pystr) (version : byte) (pattern : pystr)
    (ignore_case use_glob use_regex : bool) (limit : option Z)
    (results : list pystr) :
  parse_mlocate_db data = Return (paths, root_path, version) ->
  search_paths paths pattern ignore_case use_glob use_regex limit
  = Return results ->
  NoDup results.
Proof.
  intros Hparse. rewrite search_paths_scan.
  destruct (path_test pattern ignore_case use_glob use_regex) as [test|];
    [|discriminate].
  intros [= <-]. destruct (scan_sublist test limit paths) as [Hsub _].
  eapply sublist_NoDup; [|exact Hsub].
  destruct (parse_mlocate_db_Return _ _ _ _ Hparse) as (K & n & Hok).
  rewrite (parse_mlocate_db_header _ _ _ _ Hok) in Hparse. unfold_bind.
  destruct (directory_stream _ data _) as [[pos stream]| |]; [|discriminate..].
  injection Hparse as <- _. apply NoDup_first_occurrences.
Qed.

(** X13. The case-sensitive plain-text search without limit returns
    exactly the paths in which the pattern occurs as a contiguous run of
    characters, in the order of the input. *)
Theorem text_search_substring (paths : list pystr) (pattern : pystr) :
  exists results,
    search_paths paths pattern false false false None = Return results /\
    results `sublist_of` paths /\
    forall p, p ∈ results <->
              p ∈ paths /\ exists pre post, p = pre ++ pattern ++ post.
Proof.
  exists (List.filter (text_test pattern false) paths).
  unfold search_paths. rewrite scan_no_cap by done. cbn [app].
  split_and!; [reflexivity|apply List_filter_sublist|].
  intros p. rewrite !list_elem_of_In, List.filter_In.
  unfold text_test. by rewrite contains_spec.
Qed.

(** X14. The empty pattern matches every path: the case-sensitive
    plain-text search for it returns the whole list, or its first
    [limit] paths under a positive limit. *)
Theorem empty_pattern_matches_all (paths : list pystr) (limit : positive) :
  search_paths paths [] false false false None = Return paths /\
  search_paths paths [] false false false (Some (Z.pos limit))
  = Return (firstn (Pos.to_nat limit) paths).
Proof.
  assert (List.filter (text_test [] false) paths = paths) as Hall.
  { induction paths as [|p paths IH]; [reflexivity|].
    cbn [List.filter]. unfold text_test at 1.
    assert (contains [] p = true) as -> by (by destruct p).
    by rewrite IH. }
  unfold search_paths. split.
  - rewrite scan_no_cap by done. cbn [app]. by rewrite Hall.
  - rewrite scan_cap by (cbn [length]; lia).
    cbn [app length]. by rewrite Nat.sub_0_r, Hall, Z2Nat.inj_pos.
Qed.

(** X15. Raising a positive limit only adds results at the end: the
    results under a limit are a prefix of the results under any larger
    limit, and of the results without limit. *)
Theorem larger_limit_extends (paths : list pystr) (pattern : pystr)
    (ignore_case use_glob use_regex : bool) (l l' : Z)
    (r r' r_all : list pystr) :
  (0 < l <= l')%Z ->
  search_paths paths pattern ignore_case use_glob use_regex (Some l)
  = Return r ->
  search_paths paths pattern ignore_case use_glob use_regex (Some l')
  = Return r' ->
  search_paths paths pattern ignore_case use_glob use_regex None
  = Return r_all ->
  r `prefix_of` r' /\ r' `prefix_of` r_all.
Proof.
  intros Hl. rewrite !search_paths_scan.
  destruct (path_test pattern ignore_case use_glob use_regex) as [test|];
    [|discriminate].
  rewrite !scan_cap by (cbn [length]; lia).
  rewrite scan_no_cap by done. cbn [app length]. rewrite !Nat.sub_0_r.
  intros [= <-] [= <-] [= <-]. split; [|apply prefix_take].
  replace (Z.to_nat l) with (Nat.min (Z.to_nat l) (Z.to_nat l')) by lia.
  rewrite <- take_take. apply prefix_take.
Qed.
End MoreMatcherProperties.

Lemma results_are_matching_sublist_witness :
  [py "/home/alice/report.txt"] `sublist_of` sample_paths /\
  exists test,
    path_test (H := ascii_lib) (py "*.TXT") true true false = Some test /\
    Forall (fun p => test p = true) [py "/home/alice/report.txt"].
Proof.
  apply (results_are_matching_sublist (H := ascii_lib) sample_paths
           (py "*.TXT") true true false (Some 5%Z)).
  reflexivity.
Defined.

Lemma negative_limit_first_match_witness :
  search_paths (H := ascii_lib) sample_paths (py "home") false false false
    (Some (-3)%Z)
  = Return [py "/home/alice/report.txt"].
Proof.
  refine (negative_limit_first_match (H := ascii_lib) sample_paths (py "home")
            false false false (-3) (text_test (H := ascii_lib) (py "home") false)
            _ _).
  - reflexivity.
  - lia.
Defined.

Lemma search_after_decode_NoDup_witness :
  NoDup [py "/etc"; py "/etc/passwd"].
Proof.
  apply (search_after_decode_NoDup (H := ascii_lib) sample_db
           [py "/"; py "/etc"; py "/vmlinuz"; py "/etc/passwd"] (py "/") x00
           (py "^/etc") false false true None).
  - vm_compute. reflexivity.
  - reflexivity.
Defined.

Lemma larger_limit_extends_witness :
  [py "/home/alice/report.txt"]
    `prefix_of` [py "/home/alice/report.txt"; py "/home/bob/notes.md"] /\
  [py "/home/alice/report.txt"; py "/home/bob/notes.md"]
    `prefix_of` [py "/home/alice/report.txt"; py "/home/bob/notes.md"].
Proof.
  apply (larger_limit_extends (H := ascii_lib) sample_paths (py "home")
           false false false 1 5).
  - lia.
  - reflexivity.
  - reflexivity.
  - reflexivity.
Defined.

(** * Properties of [main] *)

Example main_sample :
  main (H := ascii_lib) sample_args (Some sample_db)
  = ([Reading (py "mlocate.db"); Loaded 4;
      PrintPath (py "/etc"); PrintPath (py "/etc/passwd"); Footer 2],
     Return tt).
Proof. vm_compute. reflexivity. Qed.

Lemma printed_paths_PrintPath results :
  printed_paths (map PrintPath results) = results.
Proof.
  unfold printed_paths. induction results as [|r results IH]; [reflexivity|].
  cbn. by rewrite IH.
Qed.

Lemma slice_to_sublist (l : list pystr) stop : slice_to l stop `sublist_of` l.
Proof. unfold slice_to. destruct (0 <=? stop)%Z; apply sublist_take. Qed.

(** No event of this kind in a list of events of other kinds. *)
Ltac no_event Hin :=
  repeat match type of Hin with
  | _ ∈ _ ++ _ => apply elem_of_app in Hin as [Hin|Hin]
  | _ ∈ _ :: _ => apply elem_of_cons in Hin as [Hin|Hin]; [discriminate|]
  | _ ∈ [] => by apply not_elem_of_nil in Hin
  | _ ∈ map _ _ => apply list_elem_of_fmap in Hin as (? & ? & _); discriminate
  end.

Section MainProperties.
Context `{StrLib}.

Lemma main_results_sublist args paths results :
  main_results args paths = Return results -> results `sublist_of` paths.
Proof.
  unfold main_results.
  destruct (arg_search args) as [[|c pattern]|].
  - destruct (arg_limit args) as [n|]; intros [= <-]; [|done].
    destruct (negb _); [apply slice_to_sublist|done].
  - rewrite search_paths_scan. destruct (path_test _ _ _ _); [|discriminate].
    intros [= <-]. apply scan_sublist.
  - destruct (arg_limit args) as [n|]; intros [= <-]; [|done].
    destruct (negb _); [apply slice_to_sublist|done].
Qed.

Lemma main_results_Raise args paths e :
  main_results args paths = Raise e ->
  arg_regex args = true /\
  exists pattern,
    arg_search args = Some pattern /\ pattern ≠ [] /\
    ((re_compile pattern (arg_ignore_case args) = ReError /\
      e = InvalidPattern) \/
     exists ce, re_compile pattern (arg_ignore_case args) = CompileRaises ce /\
                e = raised ce).
Proof.
  unfold main_results.
  destruct (arg_search args) as [[|c pattern]|].
  - destruct (arg_limit args); discriminate.
  - unfold search_paths. destruct (arg_regex args).
    + destruct (re_compile _ _) as [rx| |ce] eqn:E; [discriminate| |].
      * intros [= <-]. split; [done|]. exists (c :: pattern).
        split_and!; [done..|]. by left.
      * intros [= <-]. split; [done|]. exists (c :: pattern).
        split_and!; [done..|]. right. by exists ce.
    + destruct (arg_glob args); discriminate.
  - destruct (arg_limit args); discriminate.
Qed.

(** X16. With [--stats], once the database is decoded [main] prints the
    two loading lines, calls [show_stats] with the decoded paths, the
    file name, the root path and the version, and returns; the search
    pattern, the mode flags, the limit, [-c] and [-o] have no effect on
    the run, and a regular expression that does not compile is not
    reported. *)
Theorem stats_ignores_options (args args' : Args) (data : bytes)
    (paths : list pystr) (root_path : pystr) (version : byte) :
  arg_stats args = true ->
  parse_mlocate_db data = Return (paths, root_path, version) ->
  main args (Some data)
  = ([Reading (arg_dbfile args); Loaded (length paths);
      ShowStats paths (arg_dbfile args) root_path version], Return tt) /\
  (arg_stats args' = true -> arg_dbfile args' = arg_dbfile args ->
   forall file, main args' file = main args file).
Proof.
  intros Hs Hparse. split.
  - unfold main. by rewrite Hparse, Hs.
  - intros Hs' Hdb file. unfold main. rewrite Hs, Hs', Hdb.
    destruct file as [data'|]; [|reflexivity].
    by destruct (parse_mlocate_db data') as [[[? ?] ?]| |].
Qed.

(** X17. [main] writes a file only when [-o] has a non-empty name and
    neither [--stats] nor [-c] is given, after the database is decoded;
    the file is the one named and holds the results, which are paths of
    the decoded list in its order. *)
Theorem file_written_on_request_only (args : Args) (file : option bytes)
    (events : list event) (status : outcome unit)
    (name : pystr) (lines : list pystr) :
  main args file = (events, status) ->
  WriteFile name lines ∈ events ->
  arg_stats args = false /\ arg_count args = false /\
  arg_output args = Some name /\ name ≠ [] /\ status = Return tt /\
  exists data paths root_path version,
    file = Some data /\
    parse_mlocate_db data = Return (paths, root_path, version) /\
    main_results args paths = Return lines /\
    lines `sublist_of` paths.
Proof.
  unfold main. destruct file as [data|]; [|intros [= <- _] Hin; no_event Hin].
  destruct (parse_mlocate_db data) as [[[paths root_path] version]|e|] eqn:Hp;
    [|intros [= <- _] Hin; no_event Hin..].
  destruct (arg_stats args); [intros [= <- _] Hin; no_event Hin|].
  destruct (main_results args paths) as [results|e|] eqn:Hr;
    [|intros [= <- _] Hin; no_event Hin..].
  destruct (arg_count args); [intros [= <- _] Hin; no_event Hin|].
  destruct (arg_output args) as [[|c o]|].
  - intros [= <- _] Hin. destruct (str_truthy _), results, (arg_search args);
      no_event Hin.
  - intros [= <- <-] Hin.
    do 2 (apply elem_of_cons in Hin as [?|Hin]; [discriminate|]).
    apply elem_of_cons in Hin as [[= -> ->]|Hin]; [|no_event Hin].
    split_and!; [done..|]. exists data, paths, root_path, version.
    split_and!; [done..|]. by apply (main_results_sublist args).
  - intros [= <- _] Hin. destruct (str_truthy _), results, (arg_search args);
      no_event Hin.
Qed.
(** X18. The paths [main] prints are paths of the decoded list, in its
    order and none of them twice; with [--stats], [-c] or [-o] it prints
    no path at all. *)
Theorem printed_paths_decoded (args : Args) (data : bytes)
    (paths : list pystr) (root_path : pystr) (version : byte)
    (events : list event) (status : outcome unit) :
  parse_mlocate_db data = Return (paths, root_path, version) ->
  main args (Some data) = (events, status) ->
  printed_paths events `sublist_of` paths /\
  NoDup (printed_paths events) /\
  (arg_stats args = true \/ arg_count args = true
   \/ str_truthy (arg_output args) = true ->
   printed_paths events = []).
Proof.
  intros Hparse Hmain.
  assert (NoDup paths) as Hnd.
  { destruct (parse_mlocate_db_Return _ _ _ _ Hparse) as (K & n & Hok).
    rewrite (parse_mlocate_db_header _ _ _ _ Hok) in Hparse. unfold_bind.
    destruct (directory_stream _ data _) as [[pos stream]| |];
      [|discriminate..].
    injection Hparse as <- _. apply NoDup_first_occurrences. }
  assert (printed_paths events `sublist_of` paths /\
          (arg_stats args = true \/ arg_count args = true
           \/ str_truthy (arg_output args) = true ->
           printed_paths events = [])) as [Hsub Hnone].
  { revert Hmain. unfold main. rewrite Hparse.
    destruct (arg_stats args).
    { intros [= <- _]. split; [apply sublist_nil_l|done]. }
    destruct (main_results args paths) as [results|e|] eqn:Hr;
      [|intros [= <- _]; split; [apply sublist_nil_l|done]..].
    destruct (arg_count args).
    { intros [= <- _]. split; [apply sublist_nil_l|done]. }
    apply main_results_sublist in Hr.
    assert (forall tail,
              omap (fun e => match e with PrintPath p => Some p | _ => None end)
                   tail = [] ->
              printed_paths
                (([Reading (arg_dbfile args)] ++ [Loaded (length paths)])
                 ++ map PrintPath results ++ tail) = results) as Hprinted.
    { intros tail Htail. unfold printed_paths. rewrite !omap_app, Htail.
      fold (printed_paths (map PrintPath results)).
      rewrite printed_paths_PrintPath. cbn. by rewrite app_nil_r. }
    destruct (arg_output args) as [[|c o]|].
    - intros Heq. apply (f_equal fst) in Heq. cbn [fst] in Heq. subst events.
      rewrite Hprinted.
      + split; [exact Hr|]. intros [?|[?|?]]; discriminate.
      + by destruct (str_truthy _), results, (arg_search args).
    - intros [= <- _]. split; [apply sublist_nil_l|done].
    - intros Heq. apply (f_equal fst) in Heq. cbn [fst] in Heq. subst events.
      rewrite Hprinted.
      + split; [exact Hr|]. intros [?|[?|?]]; discriminate.
      + by destruct (str_truthy _), results, (arg_search args). }
  split_and!; [exact Hsub| |exact Hnone].
  eapply sublist_NoDup; [exact Hnd|exact Hsub].
Qed.

(** X19. [main] ends through [sys.exit] in five cases only: inside
    [parse_args()], with the status 2 for arguments it does not accept
    and 0 for [-h]; and after it with the status 1, when the database
    file does not exist, when the file does not start with the magic
    bytes, or when a search in regex mode (without [--stats]) has a
    pattern that [re.compile] rejects with [re.error]. *)
Theorem exit_status_causes (cmdline : parse_args_result) (file : db_file)
    (events : list event) (code : Z) :
  main_cli cmdline file = (events, Raise (SystemExit code)) ->
  (cmdline = UsageError /\ code = 2%Z) \/
  (cmdline = HelpRequested /\ code = 0%Z) \/
  exists args, cmdline = Parsed args /\ code = 1%Z /\
    (file = Missing \/
     (exists data, file = Content data /\ firstn 8 data ≠ MLOCATE_MAGIC) \/
     (exists data pattern,
        file = Content data /\ arg_stats args = false /\
        arg_regex args = true /\
        arg_search args = Some pattern /\ pattern ≠ [] /\
        re_compile pattern (arg_ignore_case args) = ReError)).
Proof.
  unfold main_cli. destruct cmdline as [args| |].
  2:{ intros [= _ <-]. by left. }
  2:{ intros [= _ <-]. right. by left. }
  intros Hmain. right. right. exists args. split; [reflexivity|].
  destruct file as [|errno|data].
  - injection Hmain as _ <-. split; [reflexivity|]. by left.
  - discriminate.
  - revert Hmain. unfold main.
    destruct (parse_mlocate_db data) as [[[paths root_path] version]|e|] eqn:Hp;
      [| |discriminate].
    + destruct (arg_stats args); [discriminate|].
      destruct (main_results args paths) as [results|e|] eqn:Hr.
      * destruct (arg_count args); [discriminate|].
        destruct (arg_output args) as [[|c o]|]; discriminate.
      * intros [= _ ->].
        apply main_results_Raise in Hr
          as (Hrx & pattern & Hs & Hne & [[Hc [= <-]]|(ce & _ & Hce)]).
        -- split; [reflexivity|]. right. right. by exists data, pattern.
        -- by destruct ce.
      * discriminate.
    + intros [= _ ->].
      apply parse_mlocate_db_Raise in Hp
        as [[Hmagic [= <-]]|[_ [[_ ?]|[[_ ?]|[_ ?]]]]]; try discriminate.
      split; [reflexivity|]. right. left. by exists data.
Qed.
End MainProperties.

Lemma stats_ignores_options_witness :
  main (H := ascii_lib) stats_args (Some sample_db)
  = ([Reading (arg_dbfile stats_args);
      Loaded (length [py "/"; py "/etc"; py "/vmlinuz"; py "/etc/passwd"]);
      ShowStats [py "/"; py "/etc"; py "/vmlinuz"; py "/etc/passwd"]
        (arg_dbfile stats_args) (py "/") x00], Return tt) /\
  (arg_stats stats_only_args = true ->
   arg_dbfile stats_only_args = arg_dbfile stats_args ->
   forall file,
     main (H := ascii_lib) stats_only_args file
     = main (H := ascii_lib) stats_args file).
Proof.
  apply (stats_ignores_options (H := ascii_lib) stats_args stats_only_args
           sample_db).
  - reflexivity.
  - vm_compute. reflexivity.
Defined.

Lemma file_written_on_request_only_witness :
  arg_stats output_args = false /\ arg_count output_args = false /\
  arg_output output_args = Some (py "out.txt") /\ py "out.txt" ≠ [] /\
  Return tt = Return tt /\
  exists data paths root_path version,
    Some sample_db = Some data /\
    parse_mlocate_db data = Return (paths, root_path, version) /\
    main_results (H := ascii_lib) output_args paths
    = Return [py "/etc"; py "/etc/passwd"] /\
    [py "/etc"; py "/etc/passwd"] `sublist_of` paths.
Proof.
  apply (file_written_on_request_only (H := ascii_lib) output_args
           (Some sample_db)
           [Reading (py "mlocate.db"); Loaded 4;
            WriteFile (py "out.txt") [py "/etc"; py "/etc/passwd"];
            Saved 2 (py "out.txt")]
           (Return tt)).
  - vm_compute. reflexivity.
  - do 2 constructor 2. constructor 1.
Defined.

Lemma printed_paths_decoded_witness :
  printed_paths
    [Reading (py "mlocate.db"); Loaded 4;
     PrintPath (py "/etc"); PrintPath (py "/etc/passwd"); Footer 2]
    `sublist_of` [py "/"; py "/etc"; py "/vmlinuz"; py "/etc/passwd"] /\
  NoDup (printed_paths
           [Reading (py "mlocate.db"); Loaded 4;
            PrintPath (py "/etc"); PrintPath (py "/etc/passwd"); Footer 2]) /\
  (arg_stats sample_args = true \/ arg_count sample_args = true
   \/ str_truthy (arg_output sample_args) = true ->
   printed_paths
     [Reading (py "mlocate.db"); Loaded 4;
      PrintPath (py "/etc"); PrintPath (py "/etc/passwd"); Footer 2] = []).
Proof.
  apply (printed_paths_decoded (H := ascii_lib) sample_args sample_db
           [py "/"; py "/etc"; py "/vmlinuz"; py "/etc/passwd"] (py "/") x00
           _ (Return tt)).
  - vm_compute. reflexivity.
  - vm_compute. reflexivity.
Defined.

Lemma exit_status_causes_witness :
  (Parsed bad_regex_args = UsageError /\ 1%Z = 2%Z) \/
  (Parsed bad_regex_args = HelpRequested /\ 1%Z = 0%Z) \/
  exists args, Parsed bad_regex_args = Parsed args /\ 1%Z = 1%Z /\
    (Content sample_db = Missing \/
     (exists data, Content sample_db = Content data /\
                   firstn 8 data ≠ MLOCATE_MAGIC) \/
     (exists data pattern,
        Content sample_db = Content data /\ arg_stats args = false /\
        arg_regex args = true /\
        arg_search args = Some pattern /\ pattern ≠ [] /\
        re_compile (StrLib := ascii_lib) pattern (arg_ignore_case args)
        = ReError)).
Proof.
  apply (exit_status_causes (H := ascii_lib) (Parsed bad_regex_args)
           (Content sample_db) [Reading (py "mlocate.db"); Loaded 4] 1).
  vm_compute. reflexivity.
Defined.
